(** * Object storage: memory backend, retry and LRU-cache decorators

    A shallow embedding of [storage/storage.go].  Go byte slices are
    references into a heap of backing arrays, so that aliasing between a
    caller's buffer and the stored state can be expressed; every store is
    written in state-passing style over its own state and that heap. *)

From Stdlib Require Import ZArith Lia.
From stdpp Require Import base list strings gmap.

Local Open Scope Z_scope.
Local Open Scope nat_scope.

(** ** Byte slices and the heap of backing arrays *)

Definition byte := Byte.byte.
Abbreviation loc := nat.

(** The heap: backing array number [l] is the [l]-th element.  Allocation
    appends, the way a garbage-collected allocator never hands out a live
    address twice. *)
Abbreviation heap := (list (list byte)).

(** A [[]byte] value: the nil slice, or a slice over backing array [l].
    The source never reslices or appends, so offset and capacity are not
    part of the model. *)
Inductive slice : Type :=
| Nil
| Ref (l : loc).

#[global] Instance slice_eq_dec : EqDecision slice.
Proof. solve_decision. Defined.

Definition contents (h : heap) (s : slice) : list byte :=
  match s with
  | Nil => []
  | Ref l => default [] (h !! l)
  end.

Definition len (h : heap) (s : slice) : nat := length (contents h s).

(** A slice a running program can hold: its backing array is allocated. *)
Definition live (h : heap) (s : slice) : Prop :=
  match s with
  | Nil => True
  | Ref l => l < length h
  end.

(** [make([]byte, n)]: a fresh zeroed array. *)
Definition make (n : nat) (h : heap) : slice * heap :=
  (Ref (length h), h ++ [replicate n Byte.x00]).

(** [copy(dst, src)]: overwrites the first [min(len(dst), len(src))] bytes of
    [dst]. *)
Definition copy (dst src : slice) (h : heap) : heap :=
  match dst with
  | Nil => h
  | Ref d =>
      let s := contents h src in
      let o := contents h dst in
      <[d := take (length o) s ++ drop (length s) o]> h
  end.

(** A caller writing through a slice it holds: the backing array takes any
    new contents. *)
Definition mutate (s : slice) (bs : list byte) (h : heap) : heap :=
  match s with
  | Nil => h
  | Ref l => <[l := bs]> h
  end.

Definition dup (in_ : slice) (h : heap) : slice * heap :=
  match in_ with
  | Nil => (Nil, h)
  | Ref _ =>
      let '(out, h1) := make (len h in_) h in
      (out, copy out in_ h1)
  end.

(** ** Errors and the ObjectStorage interface *)

(** Go [error] values: the distinguished [utahfs.ErrObjectNotFound], or any
    other error, told apart by its message.  A nil error is [None]. *)
Inductive error : Type :=
| ErrObjectNotFound
| ErrOther (msg : string).

#[global] Instance error_eq_dec : EqDecision error.
Proof. solve_decision. Defined.

(** [err == nil || err == utahfs.ErrObjectNotFound] *)
Definition nil_or_not_found (err : option error) : bool :=
  match err with
  | None => true
  | Some ErrObjectNotFound => true
  | Some (ErrOther _) => false
  end.

Definition is_nil (err : option error) : bool :=
  match err with
  | None => true
  | Some _ => false
  end.

(** [utahfs.ObjectStorage]: the three methods, each taking the receiver's
    state and the heap and giving them back next to the Go results. *)
Class ObjectStorage (T : Type) : Type := {
  os_Get : string → T → heap → (slice * option error) * (T * heap);
  os_Set : string → slice → T → heap → option error * (T * heap);
  os_Delete : string → T → heap → option error * (T * heap)
}.

(** ** memory *)

Abbreviation memory := (gmap string slice).

Definition NewMemory : memory := ∅.

Definition memory_Get (key : string) (m : memory) (h : heap)
  : (slice * option error) * (memory * heap) :=
  match m !! key with
  | None => ((Nil, Some ErrObjectNotFound), (m, h))
  | Some data => let '(out, h1) := dup data h in ((out, None), (m, h1))
  end.

Definition memory_Set (key : string) (data : slice) (m : memory) (h : heap)
  : option error * (memory * heap) :=
  let '(d, h1) := dup data h in (None, (<[key := d]> m, h1)).

Definition memory_Delete (key : string) (m : memory) (h : heap)
  : option error * (memory * heap) :=
  (None, (delete key m, h)).

#[global] Instance memory_ObjectStorage : ObjectStorage memory := {
  os_Get := memory_Get;
  os_Set := memory_Set;
  os_Delete := memory_Delete
}.

(** ** retry *)

Record retry (B : Type) : Type := mk_retry {
  retry_base : B;
  attempts : Z
}.
Arguments mk_retry {B} _ _.
Arguments retry_base {B} _.
Arguments attempts {B} _.

Definition NewRetry {B : Type} (base : B) (attempts : Z)
  : option (retry B) * option error :=
  if (attempts <=? 0)%Z
  then (None, Some (ErrOther "storage: attempts must be greater than zero"))
  else (Some (mk_retry base attempts), None).

Section Retry.
Context {B : Type} `{!ObjectStorage B}.

(** The loops run [i] from 0 while [i < r.attempts]: [n] counts the
    iterations left; [data] and [err] are the named results, kept from the
    last attempt when the loop runs out. *)
Fixpoint retry_Get_loop (n : nat) (key : string) (data : slice)
    (err : option error) (b : B) (h : heap)
  : (slice * option error) * (B * heap) :=
  match n with
  | O => ((data, err), (b, h))
  | S n' =>
      let '((data1, err1), (b1, h1)) := os_Get key b h in
      if nil_or_not_found err1 then ((data1, err1), (b1, h1))
      else retry_Get_loop n' key data1 err1 b1 h1
  end.

Fixpoint retry_Set_loop (n : nat) (key : string) (data : slice)
    (err : option error) (b : B) (h : heap)
  : option error * (B * heap) :=
  match n with
  | O => (err, (b, h))
  | S n' =>
      let '(err1, (b1, h1)) := os_Set key data b h in
      if is_nil err1 then (err1, (b1, h1))
      else retry_Set_loop n' key data err1 b1 h1
  end.

Fixpoint retry_Delete_loop (n : nat) (key : string)
    (err : option error) (b : B) (h : heap)
  : option error * (B * heap) :=
  match n with
  | O => (err, (b, h))
  | S n' =>
      let '(err1, (b1, h1)) := os_Delete key b h in
      if is_nil err1 then (err1, (b1, h1))
      else retry_Delete_loop n' key err1 b1 h1
  end.

Definition retry_Get (key : string) (r : retry B) (h : heap)
  : (slice * option error) * (retry B * heap) :=
  let '(res, (b1, h1)) :=
    retry_Get_loop (Z.to_nat (attempts r)) key Nil None (retry_base r) h in
  (res, (mk_retry b1 (attempts r), h1)).

Definition retry_Set (key : string) (data : slice) (r : retry B) (h : heap)
  : option error * (retry B * heap) :=
  let '(err, (b1, h1)) :=
    retry_Set_loop (Z.to_nat (attempts r)) key data None (retry_base r) h in
  (err, (mk_retry b1 (attempts r), h1)).

Definition retry_Delete (key : string) (r : retry B) (h : heap)
  : option error * (retry B * heap) :=
  let '(err, (b1, h1)) :=
    retry_Delete_loop (Z.to_nat (attempts r)) key None (retry_base r) h in
  (err, (mk_retry b1 (attempts r), h1)).

#[global] Instance retry_ObjectStorage : ObjectStorage (retry B) := {
  os_Get := retry_Get;
  os_Set := retry_Set;
  os_Delete := retry_Delete
}.
End Retry.

(** ** The LRU cache of [github.com/hashicorp/golang-lru] *)

(** Modelled from the spec: the LRU cache type [lru.Cache] comes from a
    library that is not part of the sources.  Following sections 4.4 and 9,
    it is a recency-ordered sequence of entries (most recently used first) of fixed positive capacity: a lookup that hits makes
    the entry the most recent one, an insertion puts the entry in front and
    drops the least recently used one when the capacity is exceeded. *)
Record lru : Type := mk_lru {
  lru_size : nat;
  lru_items : list (string * slice)
}.

Definition lru_New (size : Z) : option lru * option error :=
  if (size <=? 0)%Z
  then (None, Some (ErrOther "Must provide a positive size"))
  else (Some (mk_lru (Z.to_nat size) []), None).

Fixpoint lru_assoc (key : string) (items : list (string * slice))
  : option slice :=
  match items with
  | [] => None
  | (k, v) :: rest => if decide (k = key) then Some v else lru_assoc key rest
  end.

Definition lru_find (key : string) (c : lru) : option slice :=
  lru_assoc key (lru_items c).

Definition lru_drop (key : string) (items : list (string * slice))
  : list (string * slice) :=
  filter (λ e, fst e ≠ key) items.

Definition lru_Remove (key : string) (c : lru) : lru :=
  mk_lru (lru_size c) (lru_drop key (lru_items c)).

Definition lru_Get (key : string) (c : lru) : option slice * lru :=
  match lru_find key c with
  | Some v => (Some v, mk_lru (lru_size c) ((key, v) :: lru_drop key (lru_items c)))
  | None => (None, c)
  end.

Definition lru_Add (key : string) (val : slice) (c : lru) : lru :=
  match lru_find key c with
  | Some _ => mk_lru (lru_size c) ((key, val) :: lru_drop key (lru_items c))
  | None =>
      let items := (key, val) :: lru_items c in
      mk_lru (lru_size c)
        (if decide (lru_size c < length items) then removelast items else items)
  end.

Definition lru_keys (c : lru) : list string := fst <$> lru_items c.

(** ** cache *)

Record cache (B : Type) : Type := mk_cache {
  cache_base : B;
  cache_cache : lru
}.
Arguments mk_cache {B} _ _.
Arguments cache_base {B} _.
Arguments cache_cache {B} _.

Definition NewCache {B : Type} (base : B) (size : Z)
  : option (cache B) * option error :=
  match lru_New size with
  | (Some c, None) => (Some (mk_cache base c), None)
  | (_, err) => (None, err)
  end.

Section Cache.
Context {B : Type} `{!ObjectStorage B}.

Definition cache_Get (key : string) (c : cache B) (h : heap)
  : (slice * option error) * (cache B * heap) :=
  match lru_Get key (cache_cache c) with
  | (Some val, l1) =>
      let '(out, h1) := dup val h in
      ((out, None), (mk_cache (cache_base c) l1, h1))
  | (None, l1) =>
      let '((data, err), (b1, h1)) := os_Get key (cache_base c) h in
      match err with
      | Some e => ((Nil, Some e), (mk_cache b1 l1, h1))
      | None =>
          let '(d, h2) := dup data h1 in
          ((data, None), (mk_cache b1 (lru_Add key d l1), h2))
      end
  end.

Definition cache_Set (key : string) (data : slice) (c : cache B) (h : heap)
  : option error * (cache B * heap) :=
  let l1 := lru_Remove key (cache_cache c) in
  let '(err, (b1, h1)) := os_Set key data (cache_base c) h in
  match err with
  | Some e => (Some e, (mk_cache b1 l1, h1))
  | None =>
      let '(d, h2) := dup data h1 in
      (None, (mk_cache b1 (lru_Add key d l1), h2))
  end.

Definition cache_Delete (key : string) (c : cache B) (h : heap)
  : option error * (cache B * heap) :=
  let l1 := lru_Remove key (cache_cache c) in
  let '(err, (b1, h1)) := os_Delete key (cache_base c) h in
  (err, (mk_cache b1 l1, h1)).

#[global] Instance cache_ObjectStorage : ObjectStorage (cache B) := {
  os_Get := cache_Get;
  os_Set := cache_Set;
  os_Delete := cache_Delete
}.
End Cache.

(** ** A recording backend

    The test double the properties about backend calls are observed with: it
    forwards every call to the store it wraps and appends it to [calls]. *)

Inductive call : Type :=
| CallGet (key : string)
| CallSet (key : string) (data : slice)
| CallDelete (key : string).

Record traced (B : Type) : Type := mk_traced {
  traced_base : B;
  calls : list call
}.
Arguments mk_traced {B} _ _.
Arguments traced_base {B} _.
Arguments calls {B} _.

Section Traced.
Context {B : Type} `{!ObjectStorage B}.

Definition traced_Get (key : string) (t : traced B) (h : heap)
  : (slice * option error) * (traced B * heap) :=
  let '(res, (b1, h1)) := os_Get key (traced_base t) h in
  (res, (mk_traced b1 (calls t ++ [CallGet key]), h1)).

Definition traced_Set (key : string) (data : slice) (t : traced B) (h : heap)
  : option error * (traced B * heap) :=
  let '(err, (b1, h1)) := os_Set key data (traced_base t) h in
  (err, (mk_traced b1 (calls t ++ [CallSet key data]), h1)).

Definition traced_Delete (key : string) (t : traced B) (h : heap)
  : option error * (traced B * heap) :=
  let '(err, (b1, h1)) := os_Delete key (traced_base t) h in
  (err, (mk_traced b1 (calls t ++ [CallDelete key]), h1)).

#[global] Instance traced_ObjectStorage : ObjectStorage (traced B) := {
  os_Get := traced_Get;
  os_Set := traced_Set;
  os_Delete := traced_Delete
}.
End Traced.

(** A scripted backend for examples: every call consumes the next entry of
    the script and fails with it when it is an error; an exhausted script
    behaves like the memory store underneath. *)
Record scripted : Type := mk_scripted {
  script : list (option error);
  scripted_mem : memory
}.

Definition scripted_Get (key : string) (s : scripted) (h : heap)
  : (slice * option error) * (scripted * heap) :=
  match script s with
  | Some e :: rest => ((Nil, Some e), (mk_scripted rest (scripted_mem s), h))
  | rest =>
      let '(res, (m1, h1)) := memory_Get key (scripted_mem s) h in
      (res, (mk_scripted (tail rest) m1, h1))
  end.

Definition scripted_Set (key : string) (data : slice) (s : scripted) (h : heap)
  : option error * (scripted * heap) :=
  match script s with
  | Some e :: rest => (Some e, (mk_scripted rest (scripted_mem s), h))
  | rest =>
      let '(err, (m1, h1)) := memory_Set key data (scripted_mem s) h in
      (err, (mk_scripted (tail rest) m1, h1))
  end.

Definition scripted_Delete (key : string) (s : scripted) (h : heap)
  : option error * (scripted * heap) :=
  match script s with
  | Some e :: rest => (Some e, (mk_scripted rest (scripted_mem s), h))
  | rest =>
      let '(err, (m1, h1)) := memory_Delete key (scripted_mem s) h in
      (err, (mk_scripted (tail rest) m1, h1))
  end.

#[global] Instance scripted_ObjectStorage : ObjectStorage scripted := {
  os_Get := scripted_Get;
  os_Set := scripted_Set;
  os_Delete := scripted_Delete
}.

(** ** Decorator compositions over the memory store *)

Inductive shape : Type :=
| Mem
| Rty (inner : shape)
| Cch (inner : shape).

Fixpoint store (sh : shape) : Type :=
  match sh with
  | Mem => memory
  | Rty sh' => retry (store sh')
  | Cch sh' => cache (store sh')
  end.

Fixpoint store_ObjectStorage (sh : shape) : ObjectStorage (store sh) :=
  match sh with
  | Mem => memory_ObjectStorage
  | Rty sh' => @retry_ObjectStorage _ (store_ObjectStorage sh')
  | Cch sh' => @cache_ObjectStorage _ (store_ObjectStorage sh')
  end.
#[global] Existing Instance store_ObjectStorage.

(** The states the constructors can produce and the methods keep: a positive
    number of attempts, a positive cache capacity that is not exceeded. *)
Definition lru_ok (c : lru) : Prop :=
  0 < lru_size c ∧ length (lru_items c) ≤ lru_size c.

Fixpoint configured (sh : shape) : store sh → Prop :=
  match sh with
  | Mem => λ _, True
  | Rty sh' => λ r, (0 < attempts r)%Z ∧ configured sh' (retry_base r)
  | Cch sh' => λ c, lru_ok (cache_cache c) ∧ configured sh' (cache_base c)
  end.

(** A store as it comes out of [NewMemory], [NewRetry] and [NewCache]. *)
Fixpoint fresh (sh : shape) : store sh → Prop :=
  match sh with
  | Mem => λ m, m = NewMemory
  | Rty sh' => λ r,
      fresh sh' (retry_base r) ∧
      NewRetry (retry_base r) (attempts r) = (Some r, None)
  | Cch sh' => λ c,
      fresh sh' (cache_base c) ∧
      ∃ size, NewCache (cache_base c) size = (Some c, None)
  end.

(** No layer of the composition holds [key]. *)
Fixpoint absent (key : string) (sh : shape) : store sh → Prop :=
  match sh with
  | Mem => λ m, m !! key = None
  | Rty sh' => λ r, absent key sh' (retry_base r)
  | Cch sh' => λ c,
      (key ∉ lru_keys (cache_cache c)) ∧ absent key sh' (cache_base c)
  end.

(** Sequences of client operations and their results. *)
Inductive op : Type :=
| OpGet (key : string)
| OpSet (key : string) (data : list byte)
| OpDelete (key : string).

Definition op_key (o : op) : string :=
  match o with
  | OpGet k | OpSet k _ | OpDelete k => k
  end.

Section Run.
Context {T : Type} `{!ObjectStorage T}.

(** One client operation; a [Set] passes a buffer the client has just
    filled.  The error of the call is returned. *)
Definition step (o : op) (s : T) (h : heap) : option error * (T * heap) :=
  match o with
  | OpGet k => let '((_, err), st) := os_Get k s h in (err, st)
  | OpSet k bs => os_Set k (Ref (length h)) s (h ++ [bs])
  | OpDelete k => os_Delete k s h
  end.

(** Runs the operations in order; the log pairs each with its error. *)
Fixpoint run (ops : list op) (s : T) (h : heap)
  : list (op * option error) * (T * heap) :=
  match ops with
  | [] => ([], (s, h))
  | o :: rest =>
      let '(err, (s1, h1)) := step o s h in
      let '(log, st) := run rest s1 h1 in
      ((o, err) :: log, st)
  end.
End Run.

(** Whether the most recent successful mutation of [key] in a log is a
    [Set]: [false] when the key was never set or was deleted last. *)
Fixpoint was_set (key : string) (log : list (op * option error)) (acc : bool)
  : bool :=
  match log with
  | [] => acc
  | (OpSet k _, None) :: rest =>
      was_set key rest (if decide (k = key) then true else acc)
  | (OpDelete k, None) :: rest =>
      was_set key rest (if decide (k = key) then false else acc)
  | _ :: rest => was_set key rest acc
  end.

(** A successful call that reads or writes a key through the cache. *)
Inductive access : Type :=
| ByGet (key : string)
| BySet (key : string) (data : slice).

Definition access_key (a : access) : string :=
  match a with
  | ByGet k | BySet k _ => k
  end.

Section Access.
Context {B : Type} `{!ObjectStorage B}.

(** One access: a [Get] that succeeds, served from the cache or filled from
    the backend, or a [Set] the backend accepts; [None] when the call
    fails. *)
Definition access1 (a : access) (c : cache B) (h : heap)
  : option (cache B * heap) :=
  match a with
  | ByGet k =>
      match cache_Get k c h with
      | ((_, None), st) => Some st
      | _ => None
      end
  | BySet k v =>
      match cache_Set k v c h with
      | (None, st) => Some st
      | _ => None
      end
  end.

Fixpoint access_all (acc : list access) (c : cache B) (h : heap)
  : option (cache B * heap) :=
  match acc with
  | [] => Some (c, h)
  | a :: rest =>
      match access1 a c h with
      | Some (c1, h1) => access_all rest c1 h1
      | None => None
      end
  end.
End Access.

(** The keys of a sequence of accesses in the order of their latest access,
    the most recent first: an access moves its key to the front.  The last
    key of the list is the least recently accessed one. *)
Definition touch (k : string) (keys : list string) : list string :=
  k :: filter (λ x, x ≠ k) keys.

Definition recently_used (keys : list string) : list string :=
  foldl (λ l k, touch k l) [] keys.

(** Example stores and inputs. *)

(** A recording backend that fails as its script says. *)
Definition flaky (sc : list (option error)) : traced scripted :=
  mk_traced (mk_scripted sc ∅) [].

(** Cache of capacity 2 over three attempts over the memory store. *)
Definition example_shape : shape := Cch (Rty Mem).

Definition example_store : store example_shape :=
  mk_cache (mk_retry NewMemory 3) (mk_lru 2 []).

(** One live buffer holding the byte ["a"]. *)
Definition example_heap : heap := [[Byte.x61]].

Definition example_ops : list op :=
  [OpSet "a" [Byte.x31]; OpSet "b" [Byte.x32]; OpGet "a"; OpDelete "a";
   OpGet "b"].

(** [example_store] after [Set("a", Ref 0)] on [example_heap]: the memory
    store and the cache each hold their own copy of the buffer. *)
Definition example_full : store example_shape :=
  mk_cache (mk_retry {["a" := Ref 1]} 3) (mk_lru 2 [("a", Ref 2)]).

Definition example_full_heap : heap := [[Byte.x61]; [Byte.x61]; [Byte.x61]].

(** An empty cache of capacity 2 over a recorded memory store holding
    ["b"]. *)
Definition example_cache : cache (traced memory) :=
  mk_cache (mk_traced {["b" := Ref 0]} []) (mk_lru 2 []).

(** ["a"] is written, ["b"] is read from the backend, ["a"] is read again
    from the cache, then ["c"] is written. *)
Definition example_accesses : list access :=
  [BySet "a" (Ref 0); ByGet "b"; ByGet "a"; BySet "c" Nil].

(** Repeating one call [n] times, and the result of call number [i]
    (counted from 0) in such a series: what the retry loops are compared
    with. *)
Section Calls.
Context {B R : Type}.
Variable f : B → heap → R * (B * heap).

Fixpoint iter_calls (n : nat) (b : B) (h : heap) : B * heap :=
  match n with
  | O => (b, h)
  | S n' => let '(_, (b1, h1)) := f b h in iter_calls n' b1 h1
  end.

Definition nth_call (i : nat) (b : B) (h : heap) : R * (B * heap) :=
  let '(b1, h1) := iter_calls i b h in f b1 h1.

(** The common form of the three retry loops: up to [n] calls, stopping
    at the first result that satisfies [stop]. *)
Fixpoint first_attempts (stop : R → bool) (n : nat) (r : R) (b : B)
    (h : heap) : R * (B * heap) :=
  match n with
  | O => (r, (b, h))
  | S n' =>
      let '(r1, (b1, h1)) := f b h in
      if stop r1 then (r1, (b1, h1)) else first_attempts stop n' r1 b1 h1
  end.
End Calls.

(** What a retry method returns when the wrapped method returns [x]: the
    same results, the wrapped store put back under the decorator. *)
Definition under_retry {B R : Type} (N : Z) (x : R * (B * heap))
  : R * (retry B * heap) :=
  (x.1, (mk_retry x.2.1 N, x.2.2)).

(** The retry contract for one method [f] of a recording backend, [c] being
    the record of one call of it: [out] is the result of call number [S i]
    for some [i] below the number of attempts, exactly [S i] calls were
    recorded, none of the earlier results satisfies [stop], and the last one
    does unless it is the last attempt allowed. *)
Definition retried {B R : Type}
    (f : traced B → heap → R * (traced B * heap)) (stop : R → bool)
    (c : call) (N : Z) (t : traced B) (h : heap)
    (out : R * (retry (traced B) * heap)) : Prop :=
  ∃ i, i < Z.to_nat N ∧
    out = under_retry N (nth_call f i t h) ∧
    calls (retry_base out.2.1) = calls t ++ replicate (S i) c ∧
    (∀ j, j < i → stop (nth_call f j t h).1 = false) ∧
    (stop (nth_call f i t h).1 = true ∨ S i = Z.to_nat N).

(** Stores whose methods only allocate: the heap they leave extends the one
    they found, and the slice a [Get] returns is live. *)
Class Allocating (T : Type) `{!ObjectStorage T} : Prop := {
  Get_prefix key s h res s' h' :
    os_Get key s h = (res, (s', h')) → h `prefix_of` h';
  Get_live key s h d err s' h' :
    os_Get key s h = ((d, err), (s', h')) → live h' d;
  Set_prefix key data s h err s' h' :
    os_Set key data s h = (err, (s', h')) → h `prefix_of` h';
  Delete_prefix key s h err s' h' :
    os_Delete key s h = (err, (s', h')) → h `prefix_of` h'
}.

(** ** The bytes a composition stores *)

(** The bytes stored under each key: those the memory store at the bottom
    holds. *)
Fixpoint view (sh : shape) : store sh → heap → gmap string (list byte) :=
  match sh with
  | Mem => λ m h, contents h <$> m
  | Rty sh' => λ r h, view sh' (retry_base r) h
  | Cch sh' => λ c h, view sh' (cache_base c) h
  end.

(** Every slice a layer holds is live, and every cache entry carries the
    bytes stored underneath it. *)
Fixpoint coherent (sh : shape) : store sh → heap → Prop :=
  match sh with
  | Mem => λ m h, ∀ k d, m !! k = Some d → live h d
  | Rty sh' => λ r h, coherent sh' (retry_base r) h
  | Cch sh' => λ c h,
      (∀ k d, lru_find k (cache_cache c) = Some d →
         live h d ∧ view sh' (cache_base c) h !! k = Some (contents h d)) ∧
      coherent sh' (cache_base c) h
  end.

Section Observe.
Context {T : Type} `{!ObjectStorage T}.

(** What a client sees of one operation: the bytes returned (none for a
    mutation) and the error. *)
Definition observe (o : op) (s : T) (h : heap)
  : (list byte * option error) * (T * heap) :=
  match o with
  | OpGet k =>
      let '((d, err), (s1, h1)) := os_Get k s h in
      ((contents h1 d, err), (s1, h1))
  | OpSet k bs =>
      let '(err, st) := os_Set k (Ref (length h)) s (h ++ [bs]) in
      (([], err), st)
  | OpDelete k =>
      let '(err, st) := os_Delete k s h in (([], err), st)
  end.

Fixpoint observations (ops : list op) (s : T) (h : heap)
  : list (list byte * option error) :=
  match ops with
  | [] => []
  | o :: rest =>
      let '(obs, (s1, h1)) := observe o s h in
      obs :: observations rest s1 h1
  end.
End Observe.

(** The reference the compositions are compared with: a finite map from
    keys to byte strings. *)
Definition model_observe (o : op) (m : gmap string (list byte))
  : (list byte * option error) * gmap string (list byte) :=
  match o with
  | OpGet k =>
      match m !! k with
      | Some bs => ((bs, None), m)
      | None => (([], Some ErrObjectNotFound), m)
      end
  | OpSet k bs => (([], None), <[k := bs]> m)
  | OpDelete k => (([], None), delete k m)
  end.

Fixpoint model_observations (ops : list op) (m : gmap string (list byte))
  : list (list byte * option error) :=
  match ops with
  | [] => []
  | o :: rest =>
      let '(obs, m1) := model_observe o m in
      obs :: model_observations rest m1
  end.

(** * Properties *)

(** ** The heap: [dup] copies into a fresh array *)

Lemma dup_Ref (l : loc) (h : heap) :
  dup (Ref l) h = (Ref (length h), h ++ [contents h (Ref l)]).
Proof.
  unfold dup, make, copy, len. f_equal.
  assert (Hs : contents (h ++ [replicate (length (contents h (Ref l))) Byte.x00])
                 (Ref l) = contents h (Ref l)).
  { unfold contents. destruct (decide (l < length h)) as [Hlt|Hge].
    - by rewrite lookup_app_l.
    - rewrite (lookup_ge_None_2 h l) by lia.
      destruct (decide (l = length h)) as [->|Hne].
      + by rewrite list_lookup_middle.
      + rewrite lookup_ge_None_2; [done|]. rewrite length_app. simpl. lia. }
  rewrite Hs.
  assert (Ho : contents (h ++ [replicate (length (contents h (Ref l))) Byte.x00])
                 (Ref (length h)) = replicate (length (contents h (Ref l))) Byte.x00).
  { unfold contents. by rewrite list_lookup_middle. }
  rewrite Ho, length_replicate, firstn_all, drop_replicate, Nat.sub_diag.
  simpl. rewrite app_nil_r.
  replace (length h) with (length h + 0) at 1 by lia.
  by rewrite insert_app_r.
Qed.

Lemma contents_prefix (h h' : heap) (s : slice) :
  h `prefix_of` h' → live h s → contents h' s = contents h s.
Proof.
  intros [k ->] Hl. destruct s as [|l]; [done|]. unfold contents, live in *.
  by rewrite lookup_app_l.
Qed.

Lemma live_prefix (h h' : heap) (s : slice) :
  h `prefix_of` h' → live h s → live h' s.
Proof.
  intros Hp Hl. destruct s as [|l]; [done|]. simpl in *.
  apply prefix_length in Hp. lia.
Qed.

Lemma dup_prefix (s out : slice) (h h' : heap) :
  dup s h = (out, h') → h `prefix_of` h'.
Proof.
  destruct s as [|l].
  - intros [= <- <-]. done.
  - rewrite dup_Ref. intros [= <- <-]. by apply prefix_app_r.
Qed.

Lemma dup_contents (s out : slice) (h h' : heap) :
  dup s h = (out, h') → contents h' out = contents h s.
Proof.
  destruct s as [|l].
  - by intros [= <- <-].
  - rewrite dup_Ref. intros [= <- <-].
    unfold contents at 1. by rewrite list_lookup_middle.
Qed.

Lemma dup_live (s out : slice) (h h' : heap) :
  dup s h = (out, h') → live h' out.
Proof.
  destruct s as [|l].
  - by intros [= <- <-].
  - rewrite dup_Ref. intros [= <- <-]. simpl. rewrite length_app. simpl. lia.
Qed.

(** The copy is a new array: no slice that was live before is the copy. *)
Lemma dup_fresh (s out : slice) (h h' : heap) (l : loc) :
  dup s h = (out, h') → out = Ref l → length h ≤ l.
Proof.
  destruct s as [|l0].
  - by intros [= <- <-].
  - rewrite dup_Ref. intros [= <- <-] [= <-]. done.
Qed.

Lemma dup_nil_iff (s out : slice) (h h' : heap) :
  dup s h = (out, h') → (out = Nil ↔ s = Nil).
Proof.
  destruct s as [|l].
  - by intros [= <- <-].
  - rewrite dup_Ref. by intros [= <- <-].
Qed.

(** Writing through a slice leaves the other arrays alone. *)
Lemma contents_mutate_ne (h : heap) (s : slice) (l : loc) (bs : list byte) :
  s ≠ Ref l → contents (mutate s bs h) (Ref l) = contents h (Ref l).
Proof.
  destruct s as [|l0]; [done|]. intros Hne. unfold contents, mutate.
  rewrite list_lookup_insert_ne; [done|]. congruence.
Qed.

(** ** The retry loops *)

Section CallsFacts.
Context {B R : Type}.
Variable f : B → heap → R * (B * heap).

Lemma nth_call_0 (b : B) (h : heap) : nth_call f 0 b h = f b h.
Proof. done. Qed.

Lemma nth_call_S (i : nat) (b b1 : B) (h h1 : heap) (r : R) :
  f b h = (r, (b1, h1)) → nth_call f (S i) b h = nth_call f i b1 h1.
Proof. intros Hf. unfold nth_call. simpl. by rewrite Hf. Qed.

(** The loop makes [S i] calls for some [i < n] and returns the result of
    the last one; none of the earlier results stops it, and the last one
    does unless the attempts have run out. *)
Lemma first_attempts_spec (stop : R → bool) (n : nat) (r0 : R) (b : B)
    (h : heap) :
  0 < n →
  ∃ i, i < n ∧
    first_attempts f stop n r0 b h = nth_call f i b h ∧
    (∀ j, j < i → stop (nth_call f j b h).1 = false) ∧
    (stop (nth_call f i b h).1 = true ∨ S i = n).
Proof.
  revert r0 b h. induction n as [|n IH]; intros r0 b h Hn; [lia|].
  simpl. destruct (f b h) as [r1 [b1 h1]] eqn:Hf.
  destruct (stop r1) eqn:Hstop.
  - exists 0. rewrite nth_call_0, Hf. simpl.
    repeat split; [lia|intros; lia|by left].
  - destruct n as [|n].
    + exists 0. rewrite nth_call_0, Hf. simpl.
      repeat split; [lia|intros; lia|by right].
    + destruct (IH r1 b1 h1) as (i & Hi & Heq & Hbefore & Hlast); [lia|].
      exists (S i). rewrite (nth_call_S _ _ _ _ _ _ Hf).
      repeat split; [lia|done| |].
      * intros [|j] Hj.
        -- by rewrite nth_call_0, Hf.
        -- rewrite (nth_call_S _ _ _ _ _ _ Hf). apply Hbefore. lia.
      * destruct Hlast as [?|?]; [by left|right; lia].
Qed.

(** A property of store and heap that every call keeps is kept by the
    loop. *)
Lemma first_attempts_inv (I : B → heap → Prop) (stop : R → bool) (n : nat)
    (r0 r : R) (b b' : B) (h h' : heap) :
  (∀ b h r b' h', I b h → f b h = (r, (b', h')) → I b' h') →
  I b h → first_attempts f stop n r0 b h = (r, (b', h')) → I b' h'.
Proof.
  intros Hstep. revert r0 b h. induction n as [|n IH]; intros r0 b h HI; simpl.
  - by intros [= _ <- <-].
  - destruct (f b h) as [r1 [b1 h1]] eqn:Hf.
    destruct (stop r1).
    + intros [= _ <- <-]. eauto.
    + apply IH. eauto.
Qed.

(** A first call that stops the loop is the only one. *)
Lemma first_attempts_stop (stop : R → bool) (n : nat) (r0 r : R)
    (b b1 : B) (h h1 : heap) :
  0 < n → f b h = (r, (b1, h1)) → stop r = true →
  first_attempts f stop n r0 b h = (r, (b1, h1)).
Proof.
  intros Hn Hf Hstop. destruct n as [|n]; [lia|]. simpl.
  by rewrite Hf, Hstop.
Qed.
End CallsFacts.

Section RetryFacts.
Context {B : Type} `{!ObjectStorage B}.

Lemma retry_Get_loop_eq (n : nat) (key : string) (data : slice)
    (err : option error) (b : B) (h : heap) :
  retry_Get_loop n key data err b h =
  first_attempts (os_Get key) (λ r, nil_or_not_found r.2) n (data, err) b h.
Proof.
  revert data err b h. induction n as [|n IH]; intros data err b h; [done|].
  simpl. destruct (os_Get key b h) as [[d1 e1] [b1 h1]]. simpl.
  by rewrite IH.
Qed.

Lemma retry_Set_loop_eq (n : nat) (key : string) (data : slice)
    (err : option error) (b : B) (h : heap) :
  retry_Set_loop n key data err b h =
  first_attempts (os_Set key data) is_nil n err b h.
Proof.
  revert err b h. induction n as [|n IH]; intros err b h; [done|].
  simpl. destruct (os_Set key data b h) as [e1 [b1 h1]].
  by rewrite IH.
Qed.

Lemma retry_Delete_loop_eq (n : nat) (key : string)
    (err : option error) (b : B) (h : heap) :
  retry_Delete_loop n key err b h =
  first_attempts (os_Delete key) is_nil n err b h.
Proof.
  revert err b h. induction n as [|n IH]; intros err b h; [done|].
  simpl. destruct (os_Delete key b h) as [e1 [b1 h1]].
  by rewrite IH.
Qed.
End RetryFacts.

(** ** The recording backend counts the calls *)

Section TracedFacts.
Context {B R : Type}.
Variable f : traced B → heap → R * (traced B * heap).
Variable c : call.
Hypothesis f_records : ∀ t h, calls (f t h).2.1 = calls t ++ [c].

Lemma iter_calls_recorded (n : nat) (t : traced B) (h : heap) :
  calls (iter_calls f n t h).1 = calls t ++ replicate n c.
Proof.
  revert t h. induction n as [|n IH]; intros t h; simpl.
  - by rewrite app_nil_r.
  - specialize (f_records t h). destruct (f t h) as [r1 [t1 h1]].
    simpl in f_records. rewrite IH, f_records, <- app_assoc. done.
Qed.

Lemma nth_call_recorded (i : nat) (t : traced B) (h : heap) :
  calls (nth_call f i t h).2.1 = calls t ++ replicate (S i) c.
Proof.
  unfold nth_call. pose proof (iter_calls_recorded i t h) as Hi.
  destruct (iter_calls f i t h) as [t1 h1]. simpl in Hi.
  rewrite f_records, Hi, <- app_assoc. f_equal.
  change [c] with (replicate 1 c). rewrite <- replicate_add.
  f_equal. lia.
Qed.
End TracedFacts.

Section TracedRecords.
Context {B : Type} `{!ObjectStorage B}.

Lemma traced_Get_records (key : string) (t : traced B) (h : heap) :
  calls (os_Get key t h).2.1 = calls t ++ [CallGet key].
Proof.
  simpl. unfold traced_Get.
  by destruct (os_Get key (traced_base t) h) as [r1 [b1 h1]].
Qed.

Lemma traced_Set_records (key : string) (data : slice) (t : traced B)
    (h : heap) :
  calls (os_Set key data t h).2.1 = calls t ++ [CallSet key data].
Proof.
  simpl. unfold traced_Set.
  by destruct (os_Set key data (traced_base t) h) as [r1 [b1 h1]].
Qed.

Lemma traced_Delete_records (key : string) (t : traced B) (h : heap) :
  calls (os_Delete key t h).2.1 = calls t ++ [CallDelete key].
Proof.
  simpl. unfold traced_Delete.
  by destruct (os_Delete key (traced_base t) h) as [r1 [b1 h1]].
Qed.
End TracedRecords.

(** ** RetryStore: the number of attempts *)

Section RetryContract.
Context {B : Type} `{!ObjectStorage B}.

Lemma retry_Get_unfold (key : string) (N : Z) (b : B) (h : heap) :
  retry_Get key (mk_retry b N) h =
  under_retry N (first_attempts (os_Get key) (λ r, nil_or_not_found r.2)
                   (Z.to_nat N) (Nil, None) b h).
Proof.
  unfold retry_Get, under_retry. simpl. rewrite retry_Get_loop_eq.
  by destruct (first_attempts _ _ _ _ _ _) as [r1 [b1 h1]].
Qed.

Lemma retry_Set_unfold (key : string) (data : slice) (N : Z) (b : B)
    (h : heap) :
  retry_Set key data (mk_retry b N) h =
  under_retry N (first_attempts (os_Set key data) is_nil
                   (Z.to_nat N) None b h).
Proof.
  unfold retry_Set, under_retry. simpl. rewrite retry_Set_loop_eq.
  by destruct (first_attempts _ _ _ _ _ _) as [r1 [b1 h1]].
Qed.

Lemma retry_Delete_unfold (key : string) (N : Z) (b : B) (h : heap) :
  retry_Delete key (mk_retry b N) h =
  under_retry N (first_attempts (os_Delete key) is_nil
                   (Z.to_nat N) None b h).
Proof.
  unfold retry_Delete, under_retry. simpl. rewrite retry_Delete_loop_eq.
  by destruct (first_attempts _ _ _ _ _ _) as [r1 [b1 h1]].
Qed.

Lemma first_attempts_retried {R : Type}
    (f : traced B → heap → R * (traced B * heap)) (stop : R → bool)
    (c : call) (N : Z) (r0 : R) (t : traced B) (h : heap) :
  (∀ t h, calls (f t h).2.1 = calls t ++ [c]) →
  (0 < N)%Z →
  retried f stop c N t h
    (under_retry N (first_attempts f stop (Z.to_nat N) r0 t h)).
Proof.
  intros Hrec HN.
  destruct (first_attempts_spec f stop (Z.to_nat N) r0 t h)
    as (i & Hi & Heq & Hbefore & Hlast); [lia|].
  exists i. rewrite Heq. repeat split; try done.
  unfold under_retry. simpl. by apply nth_call_recorded.
Qed.
End RetryContract.

(** C5: a RetryStore with [N > 0] attempts calls the wrapped method between
    one and [N] times, one call after the other, returns the result of the
    last call it made, stops at the first result that ends the loop (a nil
    error; for [Get] also NotFound), and when no attempt ends it, makes
    exactly [N] calls and returns the error of the [N]-th. *)
Theorem retry_attempts_bounded {B : Type} `{!ObjectStorage B}
    (N : Z) (t : traced B) (key : string) (data : slice) (h : heap) :
  (0 < N)%Z →
  retried (os_Get key) (λ r, nil_or_not_found r.2) (CallGet key) N t h
    (retry_Get key (mk_retry t N) h) ∧
  retried (os_Set key data) is_nil (CallSet key data) N t h
    (retry_Set key data (mk_retry t N) h) ∧
  retried (os_Delete key) is_nil (CallDelete key) N t h
    (retry_Delete key (mk_retry t N) h).
Proof.
  intros HN. split; [|split].
  - rewrite retry_Get_unfold.
    apply first_attempts_retried; [apply traced_Get_records|done].
  - rewrite retry_Set_unfold.
    apply first_attempts_retried; [apply traced_Set_records|done].
  - rewrite retry_Delete_unfold.
    apply first_attempts_retried; [apply traced_Delete_records|done].
Qed.

(** C6: when the wrapped [Get] answers NotFound at an attempt the loop
    reaches, [retry.Get] returns that very result and the backend has seen
    no call after it. *)
Theorem retry_Get_not_found_terminal {B : Type} `{!ObjectStorage B}
    (N : Z) (t : traced B) (key : string) (h : heap) (i : nat) :
  i < Z.to_nat N →
  (∀ j, j < i → nil_or_not_found (nth_call (os_Get key) j t h).1.2 = false) →
  (nth_call (os_Get key) i t h).1.2 = Some ErrObjectNotFound →
  retry_Get key (mk_retry t N) h = under_retry N (nth_call (os_Get key) i t h) ∧
  (retry_Get key (mk_retry t N) h).1.2 = Some ErrObjectNotFound ∧
  calls (retry_base (retry_Get key (mk_retry t N) h).2.1) =
    calls t ++ replicate (S i) (CallGet key).
Proof.
  intros Hi Hbefore Hnf.
  destruct (first_attempts_spec (os_Get key) (λ r, nil_or_not_found r.2)
              (Z.to_nat N) (Nil, None) t h)
    as (i' & Hi' & Heq & Hbefore' & Hlast'); [lia|].
  assert (i' = i) as ->.
  { destruct (Nat.lt_trichotomy i' i) as [Hlt|[?|Hgt]]; [|done|].
    - specialize (Hbefore i' Hlt). cbv beta in Hlast'.
      destruct Hlast' as [Hst|?]; [congruence|lia].
    - specialize (Hbefore' i Hgt). cbv beta in Hbefore'.
      rewrite Hnf in Hbefore'. done. }
  rewrite retry_Get_unfold, Heq.
  split; [done|]. split; [exact Hnf|].
  exact (nth_call_recorded (os_Get key) (CallGet key)
           (traced_Get_records key) i t h).
Qed.


(** ** The methods only allocate *)

#[global] Instance memory_Allocating : Allocating memory.
Proof.
  split; simpl.
  - intros key m h res m' h'. unfold memory_Get.
    destruct (m !! key) as [d|]; [|by intros [= _ _ <-]].
    destruct (dup d h) as [out h1] eqn:Hd. intros [= _ _ <-].
    by eapply dup_prefix.
  - intros key m h d err m' h'. unfold memory_Get.
    destruct (m !! key) as [d0|]; [|by intros [= <- _ _ _]].
    destruct (dup d0 h) as [out h1] eqn:Hd. intros [= <- _ _ <-].
    by eapply dup_live.
  - intros key data m h err m' h'. unfold memory_Set.
    destruct (dup data h) as [out h1] eqn:Hd. intros [= _ _ <-].
    by eapply dup_prefix.
  - intros key m h err m' h'. unfold memory_Delete. by intros [= _ _ <-].
Qed.

Section DecoratorsAllocate.
Context {B : Type} `{!ObjectStorage B} `{!Allocating B}.

#[global] Instance retry_Allocating : Allocating (retry B).
Proof.
  split; simpl.
  - intros key [b N] h res r' h'. rewrite retry_Get_unfold.
    destruct (first_attempts _ _ _ _ _ _) as [r1 [b1 h1]] eqn:Hloop.
    intros [= _ _ <-].
    apply (first_attempts_inv _ (λ _ h', h `prefix_of` h') _ _ _ _ _ _ _ _)
      in Hloop; [done| |done].
    intros ????? Hp Hf. etrans; [exact Hp|]. by eapply Get_prefix.
  - intros key [b N] h d err r' h'. rewrite retry_Get_unfold.
    destruct (decide (0 < Z.to_nat N)) as [HN|HN].
    + destruct (first_attempts_spec (os_Get key)
                  (λ r, nil_or_not_found r.2) (Z.to_nat N) (Nil, None) b h HN)
        as (i & _ & -> & _). unfold nth_call.
      destruct (iter_calls (os_Get key) i b h) as [b1 h1].
      destruct (os_Get key b1 h1) as [[d2 e2] [b2 h2]] eqn:Hg.
      intros [= <- _ _ <-]. by eapply Get_live.
    + replace (Z.to_nat N) with 0 by lia. by intros [= <- _ _ _].
  - intros key data [b N] h err r' h'. rewrite retry_Set_unfold.
    destruct (first_attempts _ _ _ _ _ _) as [r1 [b1 h1]] eqn:Hloop.
    intros [= _ _ <-].
    apply (first_attempts_inv _ (λ _ h', h `prefix_of` h') _ _ _ _ _ _ _ _)
      in Hloop; [done| |done].
    intros ????? Hp Hf. etrans; [exact Hp|]. by eapply Set_prefix.
  - intros key [b N] h err r' h'. rewrite retry_Delete_unfold.
    destruct (first_attempts _ _ _ _ _ _) as [r1 [b1 h1]] eqn:Hloop.
    intros [= _ _ <-].
    apply (first_attempts_inv _ (λ _ h', h `prefix_of` h') _ _ _ _ _ _ _ _)
      in Hloop; [done| |done].
    intros ????? Hp Hf. etrans; [exact Hp|]. by eapply Delete_prefix.
Qed.

#[global] Instance cache_Allocating : Allocating (cache B).
Proof.
  split; simpl.
  - intros key c h res c' h'. unfold cache_Get.
    destruct (lru_Get key (cache_cache c)) as [[val|] l1].
    + destruct (dup val h) as [out h1] eqn:Hd. intros [= _ _ <-].
      by eapply dup_prefix.
    + destruct (os_Get key (cache_base c) h) as [[d e] [b1 h1]] eqn:Hg.
      apply Get_prefix in Hg. destruct e as [e|]; [by intros [= _ _ <-]|].
      destruct (dup d h1) as [out h2] eqn:Hd. intros [= _ _ <-].
      etrans; [exact Hg|]. by eapply dup_prefix.
  - intros key c h d err c' h'. unfold cache_Get.
    destruct (lru_Get key (cache_cache c)) as [[val|] l1].
    + destruct (dup val h) as [out h1] eqn:Hd. intros [= <- _ _ <-].
      by eapply dup_live.
    + destruct (os_Get key (cache_base c) h) as [[d0 e] [b1 h1]] eqn:Hg.
      apply Get_live in Hg. destruct e as [e|]; [by intros [= <- _ _ _]|].
      destruct (dup d0 h1) as [out h2] eqn:Hd. intros [= <- _ _ <-].
      eapply live_prefix; [by eapply dup_prefix|done].
  - intros key data c h err c' h'. unfold cache_Set.
    destruct (os_Set key data (cache_base c) h) as [e [b1 h1]] eqn:Hs.
    apply Set_prefix in Hs. destruct e as [e|]; [by intros [= _ _ <-]|].
    destruct (dup data h1) as [out h2] eqn:Hd. intros [= _ _ <-].
    etrans; [exact Hs|]. by eapply dup_prefix.
  - intros key c h err c' h'. unfold cache_Delete.
    destruct (os_Delete key (cache_base c) h) as [e [b1 h1]] eqn:Hs.
    apply Delete_prefix in Hs. by intros [= _ _ <-].
Qed.

#[global] Instance traced_Allocating : Allocating (traced B).
Proof.
  split; simpl.
  - intros key t h res t' h'. unfold traced_Get.
    destruct (os_Get key (traced_base t) h) as [r1 [b1 h1]] eqn:Hg.
    intros [= _ _ <-]. by eapply Get_prefix.
  - intros key t h d err t' h'. unfold traced_Get.
    destruct (os_Get key (traced_base t) h) as [[d1 e1] [b1 h1]] eqn:Hg.
    intros [= <- _ _ <-]. by eapply Get_live.
  - intros key data t h err t' h'. unfold traced_Set.
    destruct (os_Set key data (traced_base t) h) as [r1 [b1 h1]] eqn:Hg.
    intros [= _ _ <-]. by eapply Set_prefix.
  - intros key t h err t' h'. unfold traced_Delete.
    destruct (os_Delete key (traced_base t) h) as [r1 [b1 h1]] eqn:Hg.
    intros [= _ _ <-]. by eapply Delete_prefix.
Qed.
End DecoratorsAllocate.

#[global] Instance scripted_Allocating : Allocating scripted.
Proof.
  split; simpl.
  - intros key [sc m] h res s' h'. unfold scripted_Get. simpl.
    destruct sc as [|[e|] rest]; try (by intros [= _ _ <-]);
      destruct (memory_Get key m h) as [r1 [m1 h1]] eqn:Hg;
      intros [= _ _ <-]; by eapply (Get_prefix (T := memory)).
  - intros key [sc m] h d err s' h'. unfold scripted_Get. simpl.
    destruct sc as [|[e|] rest]; try (by intros [= <- _ _ _]);
      destruct (memory_Get key m h) as [[d1 e1] [m1 h1]] eqn:Hg;
      intros [= <- _ _ <-]; by eapply (Get_live (T := memory)).
  - intros key data [sc m] h err s' h'. unfold scripted_Set. simpl.
    destruct sc as [|[e|] rest]; try (by intros [= _ _ <-]);
      destruct (memory_Set key data m h) as [r1 [m1 h1]] eqn:Hg;
      intros [= _ _ <-]; by eapply (Set_prefix (T := memory)).
  - intros key [sc m] h err s' h'. unfold scripted_Delete. simpl.
    destruct sc as [|[e|] rest]; by intros [= _ _ <-].
Qed.

Lemma store_Allocating (sh : shape) : Allocating (store sh).
Proof. induction sh; simpl; apply _. Qed.
#[global] Existing Instance store_Allocating.

(** ** The LRU cache *)

Lemma elem_of_removelast {A : Type} (x : A) (l : list A) :
  x ∈ removelast l → x ∈ l.
Proof.
  induction l as [|a l IH]; [done|]. simpl.
  destruct l as [|b l]; [by intros ?%elem_of_nil|].
  rewrite !elem_of_cons. intros [->|Hin]; [by left|right].
  apply elem_of_cons. by apply IH.
Qed.

Lemma length_removelast_cons {A : Type} (x : A) (l : list A) :
  length (removelast (x :: l)) = length l.
Proof.
  revert x. induction l as [|a l IH]; intros x; [done|].
  change (length (removelast (x :: a :: l)))
    with (S (length (removelast (a :: l)))).
  by rewrite IH.
Qed.

Lemma lru_assoc_None (key : string) (items : list (string * slice)) :
  lru_assoc key items = None ↔ key ∉ items.*1.
Proof.
  induction items as [|[k v] items IH]; simpl.
  - split; [intros _; apply not_elem_of_nil|done].
  - rewrite not_elem_of_cons. destruct (decide (k = key)) as [->|Hne].
    + split; [done|]. by intros [? _].
    + rewrite IH. split; [intros ?; split; [congruence|done]|by intros [_ ?]].
Qed.

Lemma lru_assoc_Some_elem (key : string) (v : slice)
    (items : list (string * slice)) :
  lru_assoc key items = Some v → (key, v) ∈ items.
Proof.
  induction items as [|[k w] items IH]; simpl; [done|].
  destruct (decide (k = key)) as [->|Hne].
  - intros [= ->]. apply elem_of_cons. by left.
  - intros H. apply elem_of_cons. right. by apply IH.
Qed.

Lemma lru_drop_keys (key k : string) (items : list (string * slice)) :
  k ∈ (lru_drop key items).*1 ↔ k ∈ items.*1 ∧ k ≠ key.
Proof.
  unfold lru_drop. rewrite !list_elem_of_fmap. split.
  - intros ([k' v] & -> & Hin). apply list_elem_of_filter in Hin as [Hne Hin].
    split; [|done]. by exists (k', v).
  - intros [([k' v] & -> & Hin) Hne]. exists (k', v). split; [done|].
    by apply list_elem_of_filter.
Qed.

Lemma lru_drop_absent (key : string) (items : list (string * slice)) :
  key ∉ items.*1 → lru_drop key items = items.
Proof.
  induction items as [|[k v] items IH]; [done|]. simpl.
  rewrite not_elem_of_cons. intros [Hne Hnin]. unfold lru_drop in *.
  rewrite filter_cons_True by (simpl; congruence). by rewrite IH.
Qed.

Lemma lru_drop_length (key : string) (items : list (string * slice)) :
  length (lru_drop key items) ≤ length items.
Proof. apply length_filter. Qed.

Lemma lru_drop_length_lt (key : string) (items : list (string * slice)) :
  key ∈ items.*1 → length (lru_drop key items) < length items.
Proof.
  induction items as [|[k v] items IH]; simpl.
  - by intros ?%elem_of_nil.
  - unfold lru_drop in *. destruct (decide (k = key)) as [->|Hne].
    + intros _. rewrite filter_cons_False by (simpl; naive_solver).
      pose proof (length_filter (λ e : string * slice, e.1 ≠ key) items). lia.
    + rewrite elem_of_cons. intros [?|Hin]; [congruence|].
      rewrite filter_cons_True by done. simpl. specialize (IH Hin). lia.
Qed.

Lemma lru_find_Remove (key : string) (c : lru) :
  lru_find key (lru_Remove key c) = None.
Proof.
  unfold lru_find, lru_Remove. simpl. apply lru_assoc_None.
  rewrite lru_drop_keys. tauto.
Qed.

Lemma lru_Remove_absent (key : string) (c : lru) :
  key ∉ lru_keys (lru_Remove key c).
Proof. apply lru_assoc_None, lru_find_Remove. Qed.

Lemma lru_Get_miss (key : string) (c : lru) :
  lru_find key c = None → lru_Get key c = (None, c).
Proof. unfold lru_Get. by intros ->. Qed.

Lemma lru_Get_hit (key : string) (v : slice) (c : lru) :
  lru_find key c = Some v →
  lru_Get key c =
    (Some v, mk_lru (lru_size c) ((key, v) :: lru_drop key (lru_items c))).
Proof. unfold lru_Get. by intros ->. Qed.

(** An insertion of a key the cache does not hold puts it in front and, when
    the capacity is exceeded, drops the entry at the back. *)
Lemma lru_Add_new (key : string) (v : slice) (c : lru) :
  lru_find key c = None →
  lru_items (lru_Add key v c) =
    if decide (lru_size c < S (length (lru_items c)))
    then removelast ((key, v) :: lru_items c)
    else (key, v) :: lru_items c.
Proof. unfold lru_Add. by intros ->. Qed.

Lemma lru_Add_size (key : string) (v : slice) (c : lru) :
  lru_size (lru_Add key v c) = lru_size c.
Proof. unfold lru_Add. by destruct (lru_find key c). Qed.

Lemma lru_find_Add (key : string) (v : slice) (c : lru) :
  0 < lru_size c → lru_find key (lru_Add key v c) = Some v.
Proof.
  intros Hsz. unfold lru_Add, lru_find.
  destruct (lru_assoc key (lru_items c)) as [w|]; simpl.
  - by rewrite decide_True.
  - destruct (lru_items c) as [|x items]; simpl.
    + rewrite decide_False by lia. simpl. by rewrite decide_True.
    + destruct (decide _); simpl; by rewrite decide_True.
Qed.

Lemma lru_Add_keys (key k : string) (v : slice) (c : lru) :
  k ∈ lru_keys (lru_Add key v c) → k = key ∨ k ∈ lru_keys c.
Proof.
  unfold lru_Add, lru_keys.
  destruct (lru_find key c) as [w|]; simpl.
  - rewrite elem_of_cons, lru_drop_keys. tauto.
  - destruct (decide _).
    + intros Hin. apply list_elem_of_fmap in Hin as ([k' v'] & -> & Hin).
      apply (elem_of_removelast _ ((key, v) :: lru_items c)) in Hin as Hin'.
      apply elem_of_cons in Hin' as [[= -> ->]|Hin']; [by left|right].
      apply list_elem_of_fmap. by exists (k', v').
    + rewrite fmap_cons, elem_of_cons. done.
Qed.

Lemma lru_Remove_keys (key k : string) (c : lru) :
  k ∈ lru_keys (lru_Remove key c) → k ∈ lru_keys c.
Proof. unfold lru_keys, lru_Remove. simpl. rewrite lru_drop_keys. tauto. Qed.

(** The capacity is positive and never exceeded. *)
Lemma lru_New_ok (size : Z) (c : lru) :
  lru_New size = (Some c, None) → lru_ok c ∧ lru_items c = [].
Proof.
  unfold lru_New. destruct (size <=? 0)%Z eqn:Hs; [done|].
  intros [= <-]. unfold lru_ok. simpl.
  apply Z.leb_gt in Hs. repeat split; lia.
Qed.

Lemma lru_Remove_ok (key : string) (c : lru) :
  lru_ok c → lru_ok (lru_Remove key c).
Proof.
  unfold lru_ok, lru_Remove. simpl. intros [Hs Hl]. split; [done|].
  pose proof (lru_drop_length key (lru_items c)). lia.
Qed.

Lemma lru_Add_ok (key : string) (v : slice) (c : lru) :
  lru_ok c → lru_ok (lru_Add key v c).
Proof.
  unfold lru_ok, lru_Add. intros [Hs Hl].
  destruct (lru_find key c) as [w|] eqn:Hf; simpl.
  - split; [done|].
    assert (Hin : key ∈ (lru_items c).*1).
    { destruct (decide (key ∈ (lru_items c).*1)) as [|Hn]; [done|].
      apply lru_assoc_None in Hn. unfold lru_find in Hf. congruence. }
    pose proof (lru_drop_length_lt _ _ Hin). lia.
  - split; [done|]. destruct (decide _) as [Hgt|Hle].
    + pose proof (length_removelast_cons (key, v) (lru_items c)) as Hrl.
      simpl in *. lia.
    + simpl in *. lia.
Qed.

Lemma lru_Get_ok (key : string) (c : lru) :
  lru_ok c → lru_ok (lru_Get key c).2.
Proof.
  unfold lru_ok, lru_Get. intros [Hs Hl].
  destruct (lru_find key c) as [w|] eqn:Hf; simpl; [|done].
  split; [done|].
  assert (Hin : key ∈ (lru_items c).*1).
  { destruct (decide (key ∈ (lru_items c).*1)) as [|Hn]; [done|].
    apply lru_assoc_None in Hn. unfold lru_find in Hf. congruence. }
  pose proof (lru_drop_length_lt _ _ Hin). lia.
Qed.

(** ** CacheStore: writes and misses *)

(** C4: when the wrapped [Set] fails, [cache.Set] returns that error as it
    is, the cache holds no entry for the key afterwards, and the next
    [cache.Get] of the key calls the wrapped [Get] and reports its error. *)
Theorem cache_Set_failure_not_cached {B : Type} `{!ObjectStorage B}
    (c : cache (traced B)) (key : string) (data : slice) (h : heap)
    (e : error) (t1 : traced B) (h1 : heap) :
  os_Set key data (cache_base c) h = (Some e, (t1, h1)) →
  let c1 := mk_cache t1 (lru_Remove key (cache_cache c)) in
  cache_Set key data c h = (Some e, (c1, h1)) ∧
  (key ∉ lru_keys (cache_cache c1)) ∧
  ∀ h2 : heap,
    calls (cache_base (cache_Get key c1 h2).2.1) = calls t1 ++ [CallGet key] ∧
    (cache_Get key c1 h2).1.2 = (os_Get key t1 h2).1.2.
Proof.
  intros Hset c1. split; [|split].
  - unfold cache_Set. by rewrite Hset.
  - apply lru_Remove_absent.
  - intros h2. unfold cache_Get, c1. cbn [cache_cache cache_base].
    rewrite lru_Get_miss by apply lru_find_Remove.
    pose proof (traced_Get_records key t1 h2) as Hrec.
    destruct (os_Get key t1 h2) as [[d e2] [t2 h3]]. simpl in Hrec.
    destruct e2 as [e2|]; [done|].
    by destruct (dup d h3) as [d' h4].
Qed.

(** C7: after a [cache.Set] that succeeded, the next [cache.Get] of the key
    succeeds with the bytes that were set and leaves the wrapped store as it
    is: the recording backend has seen no further call. *)
Theorem cache_Get_after_Set_cached {B : Type} `{!ObjectStorage B}
    `{!Allocating B} (c c1 : cache (traced B)) (key : string) (v : slice)
    (h h1 : heap) :
  0 < lru_size (cache_cache c) →
  live h v →
  cache_Set key v c h = (None, (c1, h1)) →
  ∃ r c2 h2,
    cache_Get key c1 h1 = ((r, None), (c2, h2)) ∧
    contents h2 r = contents h v ∧
    cache_base c2 = cache_base c1 ∧
    calls (cache_base c2) = calls (cache_base c1).
Proof.
  intros Hsz Hlive. unfold cache_Set.
  destruct (os_Set key v (cache_base c) h) as [e [t1 h0]] eqn:Hset.
  apply Set_prefix in Hset. destruct e as [e|]; [done|].
  destruct (dup v h0) as [d h0'] eqn:Hd. intros [= <- <-].
  unfold cache_Get. cbn [cache_cache cache_base].
  rewrite (lru_Get_hit key d) by (by apply lru_find_Add).
  destruct (dup d h0') as [out h2] eqn:Hd2.
  eexists out, _, h2. split; [done|]. split; [|done].
  rewrite (dup_contents _ _ _ _ Hd2), (dup_contents _ _ _ _ Hd).
  by apply contents_prefix.
Qed.

(** C8: a [cache.Get] that misses and whose wrapped [Get] fails, with
    NotFound or any other error, returns that error and leaves the cache
    exactly as it was. *)
Theorem cache_Get_miss_failure {B : Type} `{!ObjectStorage B}
    (c : cache B) (key : string) (h : heap) (d : slice) (e : error)
    (b1 : B) (h1 : heap) :
  lru_find key (cache_cache c) = None →
  os_Get key (cache_base c) h = ((d, Some e), (b1, h1)) →
  cache_Get key c h = ((Nil, Some e), (mk_cache b1 (cache_cache c), h1)) ∧
  cache_cache (cache_Get key c h).2.1 = cache_cache c.
Proof.
  intros Hmiss Hget. unfold cache_Get.
  rewrite (lru_Get_miss _ _ Hmiss), Hget. done.
Qed.

(** ** Defensive copies *)

(** The copy is not the array of any slice that was live before. *)
Lemma dup_separate (s x out : slice) (h h' : heap) :
  live h s → dup x h = (out, h') → out = Nil ∨ s ≠ out.
Proof.
  intros Hl Hd. destruct out as [|l]; [by left|right].
  pose proof (dup_fresh _ _ _ _ l Hd eq_refl) as Hf.
  destruct s as [|l0]; [done|]. simpl in Hl. intros [= ->]. lia.
Qed.

Lemma contents_mutate_other (s d : slice) (bs : list byte) (h : heap) :
  d = Nil ∨ s ≠ d → contents (mutate s bs h) d = contents h d.
Proof.
  intros [->|Hne]; [done|]. destruct d as [|l]; [done|].
  by apply contents_mutate_ne.
Qed.

Lemma live_mutate (s d : slice) (bs : list byte) (h : heap) :
  live h d → live (mutate s bs h) d.
Proof.
  destruct d as [|l], s as [|l0]; try done. simpl. by rewrite length_insert.
Qed.

(** A stored copy of [v] survives any later write through [v]. *)
Lemma dup_survives (v d : slice) (h0 h h1 : heap) (bs : list byte) :
  live h0 v → h0 `prefix_of` h → dup v h = (d, h1) →
  contents (mutate v bs h1) d = contents h0 v.
Proof.
  intros Hl Hp Hd.
  rewrite contents_mutate_other.
  - rewrite (dup_contents _ _ _ _ Hd). by apply contents_prefix.
  - eapply dup_separate; [|exact Hd]. by eapply live_prefix.
Qed.

Lemma memory_Get_stored (key : string) (m : memory) (d : slice) (h : heap) :
  m !! key = Some d →
  ∃ r h1, memory_Get key m h = ((r, None), (m, h1)) ∧ dup d h = (r, h1).
Proof.
  intros Hm. unfold memory_Get. rewrite Hm.
  destruct (dup d h) as [r h1]. by exists r, h1.
Qed.

Section CacheCopies.
Context {B : Type} `{!ObjectStorage B}.

Lemma cache_Get_cached (key : string) (c : cache B) (d : slice) (h : heap) :
  lru_find key (cache_cache c) = Some d →
  ∃ r c1 h1, cache_Get key c h = ((r, None), (c1, h1)) ∧ dup d h = (r, h1) ∧
    cache_base c1 = cache_base c ∧ lru_find key (cache_cache c1) = Some d.
Proof.
  intros Hf. unfold cache_Get. rewrite (lru_Get_hit _ _ _ Hf).
  destruct (dup d h) as [r h1]. eexists r, _, h1.
  repeat split. unfold lru_find. simpl. by rewrite decide_True.
Qed.
End CacheCopies.

(** C9: the memory store and the cache copy the bytes on the way in and on
    the way out.  Whatever a caller writes into the buffer [v] it passed to
    [Set], a later [Get] returns the bytes [v] had; and whatever a caller
    writes into a buffer a [Get] returned, the stored slice keeps its bytes
    and the next [Get] returns them again. *)
Theorem defensive_copies {B : Type} `{!ObjectStorage B} `{!Allocating B}
    (key : string) (v : slice) (bs : list byte) (h : heap) :
  live h v →
  (∀ (m m1 : memory) (h1 : heap) (err : option error),
     memory_Set key v m h = (err, (m1, h1)) →
     ∃ r h2, memory_Get key m1 (mutate v bs h1) = ((r, None), (m1, h2)) ∧
       contents h2 r = contents h v) ∧
  (∀ m : memory, m !! key = Some v →
     ∃ r h1, memory_Get key m h = ((r, None), (m, h1)) ∧
       contents h1 r = contents h v ∧
       contents (mutate r bs h1) v = contents h v ∧
       ∃ r2 h2, memory_Get key m (mutate r bs h1) = ((r2, None), (m, h2)) ∧
         contents h2 r2 = contents h v) ∧
  (∀ (c c1 : cache B) (h1 : heap),
     0 < lru_size (cache_cache c) →
     cache_Set key v c h = (None, (c1, h1)) →
     ∃ r c2 h2, cache_Get key c1 (mutate v bs h1) = ((r, None), (c2, h2)) ∧
       contents h2 r = contents h v ∧ cache_base c2 = cache_base c1) ∧
  (∀ c : cache B, lru_find key (cache_cache c) = Some v →
     ∃ r c1 h1, cache_Get key c h = ((r, None), (c1, h1)) ∧
       contents h1 r = contents h v ∧
       lru_find key (cache_cache c1) = Some v ∧
       contents (mutate r bs h1) v = contents h v) ∧
  (∀ (c : cache B) (b1 : B) (h1 : heap),
     0 < lru_size (cache_cache c) →
     lru_find key (cache_cache c) = None →
     os_Get key (cache_base c) h = ((v, None), (b1, h1)) →
     ∃ d c1 h2, cache_Get key c h = ((v, None), (c1, h2)) ∧
       lru_find key (cache_cache c1) = Some d ∧
       contents (mutate v bs h2) d = contents h1 v).
Proof.
  intros Hlive. repeat split.
  - intros m m1 h1 err. unfold memory_Set.
    destruct (dup v h) as [d h0] eqn:Hd. intros [= <- <- <-].
    destruct (memory_Get_stored key (<[key:=d]> m) d (mutate v bs h0))
      as (r & h2 & Hget & Hd2); [apply lookup_insert_eq|].
    exists r, h2. split; [done|].
    rewrite (dup_contents _ _ _ _ Hd2). by eapply dup_survives.
  - intros m Hm.
    destruct (memory_Get_stored key m v h Hm) as (r & h1 & Hget & Hd).
    assert (Hsame : contents (mutate r bs h1) v = contents h v).
    { rewrite contents_mutate_other.
      - apply contents_prefix; [by eapply dup_prefix|done].
      - destruct (dup_separate v v r h h1 Hlive Hd) as [->|Hne].
        + apply dup_nil_iff in Hd. left. by apply Hd.
        + destruct v; [by left|by right]. }
    exists r, h1. split; [done|]. split; [by eapply dup_contents|].
    split; [done|].
    destruct (memory_Get_stored key m v (mutate r bs h1) Hm)
      as (r2 & h2 & Hget2 & Hd2).
    exists r2, h2. split; [done|].
    by rewrite (dup_contents _ _ _ _ Hd2).
  - intros c c1 h1 Hsz. unfold cache_Set.
    destruct (os_Set key v (cache_base c) h) as [e [b1 h0]] eqn:Hset.
    apply Set_prefix in Hset. destruct e as [e|]; [done|].
    destruct (dup v h0) as [d h0'] eqn:Hd. intros [= <- <-].
    destruct (cache_Get_cached key
                (mk_cache b1 (lru_Add key d (lru_Remove key (cache_cache c))))
                d (mutate v bs h0'))
      as (r & c2 & h2 & Hget & Hd2 & Hbase & _); [by apply lru_find_Add|].
    exists r, c2, h2. split; [done|]. split; [|done].
    rewrite (dup_contents _ _ _ _ Hd2). by eapply dup_survives.
  - intros c Hf.
    destruct (cache_Get_cached key c v h Hf)
      as (r & c1 & h1 & Hget & Hd & _ & Hf1).
    exists r, c1, h1. split; [done|]. split; [by eapply dup_contents|].
    split; [done|].
    rewrite contents_mutate_other.
    + apply contents_prefix; [by eapply dup_prefix|done].
    + destruct (dup_separate v v r h h1 Hlive Hd) as [->|Hne].
      * apply dup_nil_iff in Hd. left. by apply Hd.
      * destruct v; [by left|by right].
  - intros c b1 h1 Hsz Hmiss Hget. unfold cache_Get.
    rewrite (lru_Get_miss _ _ Hmiss), Hget.
    destruct (dup v h1) as [d h2] eqn:Hd.
    exists d, (mk_cache b1 (lru_Add key d (cache_cache c))), h2.
    split; [done|]. split; [by apply lru_find_Add|].
    eapply dup_survives; [|done|exact Hd].
    by eapply Get_live.
Qed.


(** ** Compositions over the memory store *)

Lemma iter_calls_inv {B R : Type} (f : B → heap → R * (B * heap))
    (I : B → heap → Prop) (n : nat) (b : B) (h : heap) :
  (∀ b h r b' h', I b h → f b h = (r, (b', h')) → I b' h') →
  I b h → I (iter_calls f n b h).1 (iter_calls f n b h).2.
Proof.
  intros Hstep. revert b h. induction n as [|n IH]; intros b h HI; [done|].
  simpl. destruct (f b h) as [r1 [b1 h1]] eqn:Hf. apply IH. eauto.
Qed.

Lemma nth_call_inv {B R : Type} (f : B → heap → R * (B * heap))
    (I : B → heap → Prop) (i : nat) (b b' : B) (h h' : heap) (r : R) :
  (∀ b h r b' h', I b h → f b h = (r, (b', h')) → I b' h') →
  I b h → nth_call f i b h = (r, (b', h')) →
  ∃ b0 h0, I b0 h0 ∧ f b0 h0 = (r, (b', h')).
Proof.
  intros Hstep HI. unfold nth_call.
  pose proof (iter_calls_inv f I i b h Hstep HI) as Hinv.
  destruct (iter_calls f i b h) as [b0 h0]. intros Hf. by exists b0, h0.
Qed.

(** The methods keep a composition configured. *)
Lemma configured_kept (sh : shape) :
  ∀ (s s' : store sh) (h h' : heap) (key : string),
    configured sh s →
    (∀ res, os_Get key s h = (res, (s', h')) → configured sh s') ∧
    (∀ data err, os_Set key data s h = (err, (s', h')) → configured sh s') ∧
    (∀ err, os_Delete key s h = (err, (s', h')) → configured sh s').
Proof.
  induction sh as [|sh IH|sh IH]; intros s s' h h' key Hc.
  - done.
  - destruct s as [b N]. destruct Hc as [HN Hb]. simpl in *.
    split; [|split].
    + intros res. rewrite retry_Get_unfold.
      destruct (first_attempts _ _ _ _ _ _) as [r1 [b1 h1]] eqn:Hloop.
      unfold under_retry. simpl. intros [= _ <- <-]. split; [done|].
      eapply (first_attempts_inv _ (λ b _, configured sh b)); [|exact Hb|exact Hloop].
      intros b0 h0 r0 b0' h0' Hc0 Hf.
      destruct (IH b0 b0' h0 h0' key Hc0) as (HG & HS & HD); eauto.
    + intros data err. rewrite retry_Set_unfold.
      destruct (first_attempts _ _ _ _ _ _) as [r1 [b1 h1]] eqn:Hloop.
      unfold under_retry. simpl. intros [= _ <- <-]. split; [done|].
      eapply (first_attempts_inv _ (λ b _, configured sh b)); [|exact Hb|exact Hloop].
      intros b0 h0 r0 b0' h0' Hc0 Hf.
      destruct (IH b0 b0' h0 h0' key Hc0) as (HG & HS & HD); eauto.
    + intros err. rewrite retry_Delete_unfold.
      destruct (first_attempts _ _ _ _ _ _) as [r1 [b1 h1]] eqn:Hloop.
      unfold under_retry. simpl. intros [= _ <- <-]. split; [done|].
      eapply (first_attempts_inv _ (λ b _, configured sh b)); [|exact Hb|exact Hloop].
      intros b0 h0 r0 b0' h0' Hc0 Hf.
      destruct (IH b0 b0' h0 h0' key Hc0) as (HG & HS & HD); eauto.
  - destruct s as [b cc]. destruct Hc as [Hok Hb]. simpl in *.
    split; [|split].
    + intros res. unfold cache_Get. cbn [cache_cache cache_base].
      pose proof (lru_Get_ok key cc Hok) as Hok'.
      destruct (lru_Get key cc) as [[val|] l1]; simpl in Hok'.
      * destruct (dup val h) as [out h1]. by intros [= _ <- _].
      * destruct (os_Get key b h) as [[d e] [b1 h1]] eqn:Hg.
        assert (configured sh b1)
          by (destruct (IH b b1 h h1 key Hb) as (HG & HS & HD); eauto).
        destruct e as [e|]; [by intros [= _ <- _]|].
        destruct (dup d h1) as [d' h2]. intros [= _ <- _].
        split; [by apply lru_Add_ok|done].
    + intros data err. unfold cache_Set. cbn [cache_cache cache_base].
      destruct (os_Set key data b h) as [e [b1 h1]] eqn:Hs.
      assert (configured sh b1)
        by (destruct (IH b b1 h h1 key Hb) as (HG & HS & HD); eauto).
      destruct e as [e|].
      * intros [= _ <- _]. split; [by apply lru_Remove_ok|done].
      * destruct (dup data h1) as [d' h2]. intros [= _ <- _].
        split; [by apply lru_Add_ok, lru_Remove_ok|done].
    + intros err. unfold cache_Delete. cbn [cache_cache cache_base].
      destruct (os_Delete key b h) as [e [b1 h1]] eqn:Hs.
      assert (configured sh b1)
        by (destruct (IH b b1 h h1 key Hb) as (HG & HS & HD); eauto).
      intros [= _ <- _]. split; [by apply lru_Remove_ok|done].
Qed.

(** On a configured composition [Set] cannot fail: the memory store at the
    bottom never does. *)
Lemma Set_succeeds (sh : shape) :
  ∀ (s : store sh) (h : heap) (key : string) (data : slice),
    configured sh s → (os_Set key data s h).1 = None.
Proof.
  induction sh as [|sh IH|sh IH]; intros s h key data Hc.
  - simpl. unfold memory_Set. by destruct (dup data h).
  - destruct s as [b N]. destruct Hc as [HN Hb]. simpl in *.
    rewrite retry_Set_unfold. specialize (IH b h key data Hb).
    destruct (os_Set key data b h) as [e [b1 h1]] eqn:Hs. simpl in IH. subst e.
    by rewrite (first_attempts_stop _ is_nil (Z.to_nat N) None None b b1 h h1)
      by (done || lia).
  - destruct s as [b cc]. destruct Hc as [Hok Hb]. simpl in *.
    unfold cache_Set. cbn [cache_cache cache_base].
    specialize (IH b h key data Hb).
    destruct (os_Set key data b h) as [e [b1 h1]] eqn:Hs. simpl in IH. subst e.
    by destruct (dup data h1).
Qed.

(** C1: on the memory store and on every configured composition of retry and
    cache decorators over it, a [Get] issued right after a successful
    [Set key v] succeeds and returns the bytes of [v]. *)
Theorem Get_after_Set (sh : shape) :
  ∀ (s s1 : store sh) (key : string) (v : slice) (h h1 : heap),
    configured sh s →
    live h v →
    os_Set key v s h = (None, (s1, h1)) →
    ∃ r s2 h2,
      os_Get key s1 h1 = ((r, None), (s2, h2)) ∧
      contents h2 r = contents h v.
Proof.
  induction sh as [|sh IH|sh IH]; simpl store; intros s s1 key v h h1 Hc Hlive.
  - simpl. unfold memory_Set. destruct (dup v h) as [d h0] eqn:Hd.
    intros [= <- <-].
    destruct (memory_Get_stored key (<[key:=d]> s) d h0)
      as (r & h2 & Hget & Hd2); [apply lookup_insert_eq|].
    exists r, (<[key:=d]> s), h2. split; [done|].
    by rewrite (dup_contents _ _ _ _ Hd2), (dup_contents _ _ _ _ Hd).
  - destruct s as [b N]. destruct Hc as [HN Hb]. simpl in HN, Hb.
    change (os_Set key v (mk_retry b N) h) with (retry_Set key v (mk_retry b N) h).
    rewrite retry_Set_unfold.
    destruct (first_attempts_spec (os_Set key v) is_nil (Z.to_nat N) None b h)
      as (i & _ & -> & _); [lia|].
    destruct (nth_call (os_Set key v) i b h) as [e [b1 h0]] eqn:Hnth.
    unfold under_retry. simpl. intros [= -> <- <-].
    destruct (nth_call_inv (os_Set key v)
                (λ b0 h0, configured sh b0 ∧ h `prefix_of` h0)
                i b b1 h h0 None) as (b0 & h0' & [Hc0 Hp0] & Hset);
      [|done|done|].
    { intros b2 h2 r2 b2' h2' [Hc2 Hp2] Hf. split.
      - destruct (configured_kept sh b2 b2' h2 h2' key Hc2) as (_ & HS & _).
        eauto.
      - etrans; [exact Hp2|]. by eapply Set_prefix. }
    destruct (IH b0 b1 key v h0' h0 Hc0) as (r & b2 & h2 & Hget & Hcont);
      [by eapply live_prefix|done|].
    exists r, (mk_retry b2 N), h2. split.
    + change (os_Get key (mk_retry b1 N) h0)
        with (retry_Get key (mk_retry b1 N) h0).
      rewrite retry_Get_unfold.
      by rewrite (first_attempts_stop _ _ (Z.to_nat N) _ (r, None) b1 b2 h0 h2)
        by (done || lia).
    + rewrite Hcont. by apply contents_prefix.
  - destruct s as [b cc]. destruct Hc as [[Hsz _] Hb]. simpl in Hsz, Hb.
    change (os_Set key v (mk_cache b cc) h)
      with (cache_Set key v (mk_cache b cc) h).
    unfold cache_Set. cbn [cache_cache cache_base].
    destruct (os_Set key v b h) as [e [b1 h0]] eqn:Hset.
    apply Set_prefix in Hset. destruct e as [e|]; [done|].
    destruct (dup v h0) as [d h0'] eqn:Hd. intros [= <- <-].
    destruct (cache_Get_cached key
                (mk_cache b1 (lru_Add key d (lru_Remove key cc))) d h0')
      as (r & c2 & h2 & Hget & Hd2 & _); [by apply lru_find_Add|].
    exists r, c2, h2. split; [done|].
    rewrite (dup_contents _ _ _ _ Hd2), (dup_contents _ _ _ _ Hd).
    by apply contents_prefix.
Qed.

(** ** Keys no layer holds *)

Lemma lru_find_absent (key : string) (c : lru) :
  key ∉ lru_keys c → lru_find key c = None.
Proof. apply lru_assoc_None. Qed.

(** A [Get] of a key no layer holds answers NotFound and changes nothing. *)
Lemma absent_Get (sh : shape) :
  ∀ (s : store sh) (h : heap) (key : string),
    configured sh s → absent key sh s →
    os_Get key s h = ((Nil, Some ErrObjectNotFound), (s, h)).
Proof.
  induction sh as [|sh IH|sh IH]; simpl store; intros s h key Hc Ha.
  - simpl in *. unfold memory_Get. by rewrite Ha.
  - destruct s as [b N]. destruct Hc as [HN Hb]. simpl in HN, Hb, Ha.
    change (os_Get key (mk_retry b N) h) with (retry_Get key (mk_retry b N) h).
    rewrite retry_Get_unfold.
    by rewrite (first_attempts_stop _ _ (Z.to_nat N) _
                  (Nil, Some ErrObjectNotFound) b b h h)
      by (done || lia || by apply IH).
  - destruct s as [b cc]. destruct Hc as [Hok Hb]. destruct Ha as [Hk Ha].
    simpl in Hok, Hb, Hk, Ha.
    change (os_Get key (mk_cache b cc) h) with (cache_Get key (mk_cache b cc) h).
    unfold cache_Get. cbn [cache_cache cache_base].
    rewrite lru_Get_miss by (by apply lru_find_absent).
    by rewrite (IH b h key Hb Ha).
Qed.

(** Reading or writing another key, and deleting any key, leaves an absent
    key absent. *)
Lemma absent_kept (sh : shape) :
  ∀ (s s' : store sh) (h h' : heap) (key k : string),
    absent k sh s →
    (∀ res, k ≠ key → os_Get key s h = (res, (s', h')) → absent k sh s') ∧
    (∀ data err, k ≠ key →
       os_Set key data s h = (err, (s', h')) → absent k sh s') ∧
    (∀ err, os_Delete key s h = (err, (s', h')) → absent k sh s').
Proof.
  induction sh as [|sh IH|sh IH]; simpl store; intros s s' h h' key k Ha.
  - simpl in *. split; [|split].
    + intros res Hne. unfold memory_Get. destruct (s !! key) as [d|].
      * destruct (dup d h). by intros [= _ <- _].
      * by intros [= _ <- _].
    + intros data err Hne. unfold memory_Set. destruct (dup data h).
      intros [= _ <- _]. by rewrite lookup_insert_ne.
    + intros err. unfold memory_Delete. intros [= _ <- _].
      rewrite lookup_delete. by destruct (decide (key = k)).
  - destruct s as [b N]. simpl in Ha. split; [|split].
    + intros res Hne.
      change (os_Get key (mk_retry b N) h) with (retry_Get key (mk_retry b N) h).
      rewrite retry_Get_unfold.
      destruct (first_attempts _ _ _ _ _ _) as [r1 [b1 h1]] eqn:Hloop.
      unfold under_retry. simpl. intros [= _ <- _].
      eapply (first_attempts_inv _ (λ b _, absent k sh b)); [|exact Ha|exact Hloop].
      intros b0 h0 r0 b0' h0' Ha0 Hf.
      destruct (IH b0 b0' h0 h0' key k Ha0) as (HG & _ & _); eauto.
    + intros data err Hne.
      change (os_Set key data (mk_retry b N) h)
        with (retry_Set key data (mk_retry b N) h).
      rewrite retry_Set_unfold.
      destruct (first_attempts _ _ _ _ _ _) as [r1 [b1 h1]] eqn:Hloop.
      unfold under_retry. simpl. intros [= _ <- _].
      eapply (first_attempts_inv _ (λ b _, absent k sh b)); [|exact Ha|exact Hloop].
      intros b0 h0 r0 b0' h0' Ha0 Hf.
      destruct (IH b0 b0' h0 h0' key k Ha0) as (_ & HS & _); eauto.
    + intros err.
      change (os_Delete key (mk_retry b N) h)
        with (retry_Delete key (mk_retry b N) h).
      rewrite retry_Delete_unfold.
      destruct (first_attempts _ _ _ _ _ _) as [r1 [b1 h1]] eqn:Hloop.
      unfold under_retry. simpl. intros [= _ <- _].
      eapply (first_attempts_inv _ (λ b _, absent k sh b)); [|exact Ha|exact Hloop].
      intros b0 h0 r0 b0' h0' Ha0 Hf.
      destruct (IH b0 b0' h0 h0' key k Ha0) as (_ & _ & HD); eauto.
  - destruct s as [b cc]. destruct Ha as [Hk Ha]. simpl in Hk, Ha.
    split; [|split].
    + intros res Hne.
      change (os_Get key (mk_cache b cc) h)
        with (cache_Get key (mk_cache b cc) h).
      unfold cache_Get, lru_Get. cbn [cache_cache cache_base].
      destruct (lru_find key cc) as [val|] eqn:Hf.
      * destruct (dup val h). intros [= _ <- _]. split; [|done].
        unfold lru_keys. simpl. rewrite not_elem_of_cons. split; [done|].
        rewrite lru_drop_keys. tauto.
      * destruct (os_Get key b h) as [[d e] [b1 h1]] eqn:Hg.
        assert (absent k sh b1)
          by (destruct (IH b b1 h h1 key k Ha) as (HG & _ & _); eauto).
        destruct e as [e|]; [by intros [= _ <- _]|].
        destruct (dup d h1). intros [= _ <- _]. split; [|done].
        intros [?|?]%lru_Add_keys; done.
    + intros data err Hne.
      change (os_Set key data (mk_cache b cc) h)
        with (cache_Set key data (mk_cache b cc) h).
      unfold cache_Set. cbn [cache_cache cache_base].
      destruct (os_Set key data b h) as [e [b1 h1]] eqn:Hs.
      assert (absent k sh b1)
        by (destruct (IH b b1 h h1 key k Ha) as (_ & HS & _); eauto).
      destruct e as [e|].
      * intros [= _ <- _]. split; [|done]. by intros ?%lru_Remove_keys.
      * destruct (dup data h1). intros [= _ <- _]. split; [|done].
        intros [?|?%lru_Remove_keys]%lru_Add_keys; done.
    + intros err.
      change (os_Delete key (mk_cache b cc) h)
        with (cache_Delete key (mk_cache b cc) h).
      unfold cache_Delete. cbn [cache_cache cache_base].
      destruct (os_Delete key b h) as [e [b1 h1]] eqn:Hs.
      assert (absent k sh b1)
        by (destruct (IH b b1 h h1 key k Ha) as (_ & _ & HD); eauto).
      intros [= _ <- _]. split; [|done]. by intros ?%lru_Remove_keys.
Qed.

(** After a [Delete] no layer holds the key. *)
Lemma Delete_absent (sh : shape) :
  ∀ (s s' : store sh) (h h' : heap) (key : string) (err : option error),
    configured sh s →
    os_Delete key s h = (err, (s', h')) → absent key sh s'.
Proof.
  induction sh as [|sh IH|sh IH]; simpl store; intros s s' h h' key err Hc.
  - simpl. unfold memory_Delete. intros [= _ <- _]. apply lookup_delete_eq.
  - destruct s as [b N]. destruct Hc as [HN Hb]. simpl in HN, Hb.
    change (os_Delete key (mk_retry b N) h)
      with (retry_Delete key (mk_retry b N) h).
    rewrite retry_Delete_unfold.
    destruct (first_attempts_spec (os_Delete key) is_nil (Z.to_nat N) None b h)
      as (i & _ & -> & _); [lia|].
    destruct (nth_call (os_Delete key) i b h) as [e [b1 h1]] eqn:Hnth.
    unfold under_retry. simpl. intros [= _ <- _]. simpl.
    destruct (nth_call_inv (os_Delete key) (λ b0 _, configured sh b0)
                i b b1 h h1 e) as (b0 & h0 & Hc0 & Hdel); [|done|done|].
    { intros b2 h2 r2 b2' h2' Hc2 Hf.
      destruct (configured_kept sh b2 b2' h2 h2' key Hc2) as (_ & _ & HD).
      eauto. }
    by eapply IH.
  - destruct s as [b cc]. destruct Hc as [Hok Hb]. simpl in Hok, Hb.
    change (os_Delete key (mk_cache b cc) h)
      with (cache_Delete key (mk_cache b cc) h).
    unfold cache_Delete. cbn [cache_cache cache_base].
    destruct (os_Delete key b h) as [e [b1 h1]] eqn:Hs.
    intros [= _ <- _]. split; [apply lru_Remove_absent|]. by eapply IH.
Qed.

(** A freshly constructed composition is configured and holds no key. *)
Lemma fresh_configured (sh : shape) :
  ∀ s : store sh, fresh sh s → configured sh s ∧ ∀ k, absent k sh s.
Proof.
  induction sh as [|sh IH|sh IH]; simpl store; intros s Hf.
  - simpl in *. subst s. split; [done|]. intros k. apply lookup_empty.
  - destruct s as [b N]. destruct Hf as [Hb HN]. simpl in Hb, HN.
    destruct (IH b Hb) as [Hc Ha]. unfold NewRetry in HN.
    destruct (N <=? 0)%Z eqn:HN0; [done|]. apply Z.leb_gt in HN0.
    split; [by split|]. intros k. apply Ha.
  - destruct s as [b cc]. destruct Hf as [Hb [size Hsz]]. simpl in Hb, Hsz.
    destruct (IH b Hb) as [Hc Ha]. unfold NewCache in Hsz.
    destruct (lru_New size) as [[l|] [e|]] eqn:Hnew; try done.
    injection Hsz as ->. apply lru_New_ok in Hnew as [Hok Hitems].
    split; [by split|]. intros k. split; [|apply Ha].
    unfold lru_keys. simpl. rewrite Hitems. apply not_elem_of_nil.
Qed.

Lemma step_configured (sh : shape) (o : op) (s s1 : store sh) (h h1 : heap)
    (err : option error) :
  configured sh s → step o s h = (err, (s1, h1)) → configured sh s1.
Proof.
  intros Hc. destruct o as [k|k bs|k]; simpl.
  - destruct (os_Get k s h) as [[d e] [s' h']] eqn:Hg. intros [= _ <- _].
    destruct (configured_kept sh s s' h h' k Hc) as (HG & _ & _); eauto.
  - intros Hs.
    destruct (configured_kept sh s s1 (h ++ [bs]) h1 k Hc) as (_ & HS & _); eauto.
  - intros Hd.
    destruct (configured_kept sh s s1 h h1 k Hc) as (_ & _ & HD); eauto.
Qed.

(** Along a run, a key whose last successful mutation is not a [Set] is held
    by no layer. *)
Lemma run_absent (sh : shape) (key : string) (ops : list op) :
  ∀ (s : store sh) (h : heap) (acc : bool),
    configured sh s →
    (acc = false → absent key sh s) →
    was_set key (run ops s h).1 acc = false →
    configured sh (run ops s h).2.1 ∧ absent key sh (run ops s h).2.1.
Proof.
  induction ops as [|o ops IH]; intros s h acc Hc Ha.
  - simpl. intros ->. split; [done|]. by apply Ha.
  - simpl. destruct (step o s h) as [err [s1 h1]] eqn:Hstep.
    pose proof (step_configured sh o s s1 h h1 err Hc Hstep) as Hc1.
    specialize (IH s1 h1).
    destruct (run ops s1 h1) as [log st] eqn:Hrun. simpl in *.
    destruct o as [k|k bs|k]; simpl in Hstep.
    + intros Hw. apply (IH acc Hc1); [|done]. intros Hacc.
      specialize (Ha Hacc).
      destruct (os_Get k s h) as [[d e] [s' h']] eqn:Hg.
      injection Hstep as _ <- _.
      destruct (decide (key = k)) as [<-|Hne].
      * rewrite (absent_Get sh s h key Hc Ha) in Hg. by injection Hg as _ _ <- _.
      * destruct (absent_kept sh s s' h h' k key Ha) as (HG & _ & _); eauto.
    + pose proof (Set_succeeds sh s (h ++ [bs]) k (Ref (length h)) Hc) as Hok.
      rewrite Hstep in Hok. simpl in Hok. subst err.
      intros Hw. eapply (IH _ Hc1); [|exact Hw].
      destruct (decide (k = key)) as [->|Hne]; [done|]. intros Hacc.
      destruct (absent_kept sh s s1 (h ++ [bs]) h1 k key (Ha Hacc))
        as (_ & HS & _); eauto.
    + destruct err as [e|].
      * intros Hw. apply (IH acc Hc1); [|done]. intros Hacc.
        destruct (absent_kept sh s s1 h h1 k key (Ha Hacc)) as (_ & _ & HD).
        eauto.
      * intros Hw. eapply (IH _ Hc1); [|exact Hw].
        destruct (decide (k = key)) as [->|Hne].
        -- intros _. exact (Delete_absent sh s s1 h h1 key None Hc Hstep).
        -- intros Hacc.
           destruct (absent_kept sh s s1 h h1 k key (Ha Hacc)) as (_ & _ & HD).
           eauto.
Qed.

(** C2: on the memory store and on every composition of retry and cache
    decorators built over it, after any sequence of operations, a [Get] of a
    key that was never set, or whose most recent successful mutation was a
    [Delete], fails with NotFound, returns no data and changes nothing. *)
Theorem Get_unset_not_found (sh : shape) (s0 : store sh) (h0 : heap)
    (ops : list op) (key : string) :
  fresh sh s0 →
  was_set key (run ops s0 h0).1 false = false →
  os_Get key (run ops s0 h0).2.1 (run ops s0 h0).2.2 =
    ((Nil, Some ErrObjectNotFound), (run ops s0 h0).2).
Proof.
  intros Hf Hw. destruct (fresh_configured sh s0 Hf) as [Hc Ha].
  destruct (run_absent sh key ops s0 h0 false Hc (λ _, Ha key) Hw) as [Hc' Ha'].
  destruct (run ops s0 h0) as [log [s h]]. simpl in *.
  by apply absent_Get.
Qed.

(** ** CacheStore: eviction *)

Lemma lru_find_present (key : string) (c : lru) :
  key ∈ lru_keys c → is_Some (lru_find key c).
Proof.
  intros Hin. destruct (lru_find key c) eqn:Hf; [by eexists|].
  by apply lru_assoc_None in Hf.
Qed.

Lemma lru_drop_fmap (key : string) (items : list (string * slice)) :
  (lru_drop key items).*1 = filter (λ x, x ≠ key) items.*1.
Proof.
  induction items as [|[k v] items IH]; [done|].
  unfold lru_drop in *. rewrite fmap_cons. simpl fst.
  destruct (decide (k = key)) as [->|Hne].
  - rewrite !filter_cons_False by (simpl; tauto). exact IH.
  - rewrite !filter_cons_True by done. rewrite fmap_cons, IH. done.
Qed.

Lemma filter_ne_absent (k : string) (l : list string) :
  k ∉ l → filter (λ x, x ≠ k) l = l.
Proof.
  induction l as [|x l IH]; [done|]. rewrite not_elem_of_cons.
  intros [Hne Hnin]. rewrite filter_cons_True by congruence.
  by rewrite IH.
Qed.

Lemma NoDup_touch (k : string) (l : list string) :
  NoDup l → NoDup (touch k l).
Proof.
  intros Hnd. unfold touch. apply NoDup_cons. split.
  - rewrite list_elem_of_filter. tauto.
  - by apply NoDup_filter.
Qed.

Lemma NoDup_foldl_touch (keys l : list string) :
  NoDup l → NoDup (foldl (λ l k, touch k l) l keys).
Proof.
  revert l. induction keys as [|k keys IH]; intros l Hnd; [done|].
  simpl. by apply IH, NoDup_touch.
Qed.

(** In a list without duplicates, removing one key from the first [S n]
    entries or from all of them leaves the same first [n] entries. *)
Lemma take_filter_take (k : string) (n : nat) (l : list string) :
  NoDup l →
  take n (filter (λ x, x ≠ k) (take (S n) l)) =
  take n (filter (λ x, x ≠ k) l).
Proof.
  revert n. induction l as [|x l IH]; intros n Hnd; [done|].
  apply NoDup_cons in Hnd as [Hx Hnd].
  change (take (S n) (x :: l)) with (x :: take n l).
  destruct (decide (x = k)) as [->|Hne].
  - rewrite !filter_cons_False by tauto.
    rewrite (filter_ne_absent k l Hx).
    rewrite filter_ne_absent.
    + rewrite take_take. f_equal. lia.
    + intros Hin. apply Hx. eapply (subseteq_take n l). exact Hin.
  - rewrite !filter_cons_True by done.
    destruct n as [|n]; [done|].
    change (take (S n) (x :: ?l')) with (x :: take n l').
    simpl. f_equal. by apply IH.
Qed.

(** Touching a key in the first [S n] entries of a recency list gives the
    first [S n] entries of the touched list. *)
Lemma touch_take_step (n : nat) (k : string) (l rest : list string) :
  NoDup l →
  ∃ rest',
    take (S n) (touch k (take (S n) (l ++ rest))) =
    take (S n) (touch k l ++ rest').
Proof.
  intros Hnd. unfold touch.
  exists (filter (λ x, x ≠ k) (take (S n - length l) rest)).
  rewrite take_app, filter_app. simpl. f_equal.
  destruct (decide (length l ≤ S n)) as [Hle|Hgt].
  - by rewrite (take_ge l) by done.
  - replace (S n - length l) with 0 by lia.
    simpl. rewrite !app_nil_r. by apply take_filter_take.
Qed.

Lemma lru_Add_new_take (key : string) (v : slice) (cc : lru) :
  lru_find key cc = None →
  length (lru_items cc) ≤ lru_size cc →
  lru_items (lru_Add key v cc) = take (lru_size cc) ((key, v) :: lru_items cc).
Proof.
  intros Hf Hle. rewrite (lru_Add_new _ _ _ Hf).
  destruct (decide _) as [Hover|Hfit].
  - rewrite removelast_firstn_len. simpl length. simpl Nat.pred.
    f_equal. lia.
  - rewrite take_ge; [done|]. simpl. lia.
Qed.

Section Eviction.
Context {B : Type} `{!ObjectStorage B}.

(** Every successful access makes its key the most recent one and keeps, in
    their order, as many of the other keys as the capacity allows. *)
Lemma access1_keys (a : access) (c c1 : cache B) (h h1 : heap) :
  lru_ok (cache_cache c) →
  access1 a c h = Some (c1, h1) →
  lru_keys (cache_cache c1) =
    take (lru_size (cache_cache c))
         (touch (access_key a) (lru_keys (cache_cache c))) ∧
  lru_size (cache_cache c1) = lru_size (cache_cache c) ∧
  lru_ok (cache_cache c1).
Proof.
  destruct c as [b cc]. intros Hok. pose proof Hok as [Hsz Hle].
  cbn [cache_cache] in *.
  assert (Hnew : ∀ k d l,
            lru_find k l = None → lru_size l = lru_size cc →
            length (lru_items l) ≤ lru_size l →
            (lru_items l).*1 = filter (λ x, x ≠ k) (lru_keys cc) →
            lru_keys (lru_Add k d l)
              = take (lru_size cc) (touch k (lru_keys cc)) ∧
            lru_size (lru_Add k d l) = lru_size cc).
  { intros k d l Hf Hs Hl Hk. split; [|by rewrite lru_Add_size].
    unfold lru_keys at 1. rewrite (lru_Add_new_take _ _ _ Hf Hl).
    rewrite fmap_take, fmap_cons, Hk, Hs. done. }
  destruct a as [k|k v]; simpl.
  - unfold cache_Get. cbn [cache_cache cache_base].
    destruct (lru_find k cc) as [w|] eqn:Hf.
    + rewrite (lru_Get_hit _ _ _ Hf).
      destruct (dup w h) as [out h0]. intros [= <- <-].
      cbn [cache_cache lru_size]. split; [|split; [done|]].
      * unfold lru_keys at 1. cbn [lru_items].
        rewrite fmap_cons, lru_drop_fmap. simpl fst.
        change (k :: filter (λ x, x ≠ k) (lru_items cc).*1)
          with (touch k (lru_keys cc)).
        rewrite take_ge; [done|]. unfold touch, lru_keys.
        rewrite <- lru_drop_fmap. simpl. rewrite length_fmap.
        assert (Hin : k ∈ (lru_items cc).*1).
        { destruct (decide (k ∈ (lru_items cc).*1)) as [|Hn]; [done|].
          apply lru_assoc_None in Hn. unfold lru_find in Hf. congruence. }
        pose proof (lru_drop_length_lt _ _ Hin). lia.
      * pose proof (lru_Get_ok k cc Hok) as Hok'.
        by rewrite (lru_Get_hit _ _ _ Hf) in Hok'.
    + rewrite (lru_Get_miss _ _ Hf).
      destruct (os_Get k b h) as [[data e] [b1 h0]].
      destruct e as [e|]; [done|].
      destruct (dup data h0) as [d h2]. intros [= <- <-].
      cbn [cache_cache].
      destruct (Hnew k d cc Hf eq_refl Hle) as [Hk Hs].
      { symmetry. apply filter_ne_absent. by apply lru_assoc_None. }
      split; [done|]. split; [done|]. by apply lru_Add_ok.
  - unfold cache_Set. cbn [cache_cache cache_base].
    destruct (os_Set k v b h) as [e [b1 h0]].
    destruct e as [e|]; [done|].
    destruct (dup v h0) as [d h2]. intros [= <- <-].
    cbn [cache_cache].
    destruct (Hnew k d (lru_Remove k cc)) as [Hk Hs].
    { apply lru_find_Remove. }
    { done. }
    { simpl. pose proof (lru_drop_length k (lru_items cc)). lia. }
    { simpl. apply lru_drop_fmap. }
    split; [done|]. split; [done|]. by apply lru_Add_ok, lru_Remove_ok.
Qed.

(** Along a sequence of accesses the cache holds the first keys of the
    recency list, as many as fit. *)
Lemma access_all_keys (acc : list access) :
  ∀ (c c' : cache B) (h h' : heap) (l rest : list string),
    lru_ok (cache_cache c) →
    NoDup l →
    lru_keys (cache_cache c) = take (lru_size (cache_cache c)) (l ++ rest) →
    access_all acc c h = Some (c', h') →
    lru_size (cache_cache c') = lru_size (cache_cache c) ∧
    ∃ rest',
      lru_keys (cache_cache c') =
        take (lru_size (cache_cache c))
             (foldl (λ l k, touch k l) l (access_key <$> acc) ++ rest').
Proof.
  induction acc as [|a acc IH]; intros c c' h h' l rest Hok Hnd Hkeys.
  - simpl. intros [= <- <-]. split; [done|]. by exists rest.
  - simpl. destruct (access1 a c h) as [[c1 h1]|] eqn:Ha; [|done].
    intros Hall.
    destruct (access1_keys a c c1 h h1 Hok Ha) as (Hk1 & Hs1 & Hok1).
    destruct Hok as [Hsz _].
    destruct (lru_size (cache_cache c)) as [|n] eqn:Hn; [lia|].
    rewrite Hkeys in Hk1.
    destruct (touch_take_step n (access_key a) l rest Hnd) as [rest1 Hstep].
    rewrite Hstep in Hk1.
    destruct (IH c1 c' h1 h' (touch (access_key a) l) rest1 Hok1)
      as [Hs' [rest' Hk']]; [by apply NoDup_touch|by rewrite Hs1|done|].
    split; [congruence|]. exists rest'. by rewrite Hk', Hs1.
Qed.
End Eviction.

(** C3: in a cache of capacity [C] over a recording backend, after any
    sequence of successful accesses ([Get]s served from the cache or filled
    from the backend, and [Set]s) that touches [C + 1] distinct keys, the
    cache holds exactly the [C] most recently accessed of them, most recent
    first.  The least recently accessed key is gone: a [Get] of it calls the
    backend, while a [Get] of any of the other [C] keys succeeds and leaves
    the backend and its call record untouched. *)
Theorem cache_evicts_least_recent {B : Type} `{!ObjectStorage B}
    (c c' : cache (traced B)) (h h' : heap) (acc : list access) :
  lru_ok (cache_cache c) →
  access_all acc c h = Some (c', h') →
  length (recently_used (access_key <$> acc)) = S (lru_size (cache_cache c)) →
  lru_keys (cache_cache c') =
    take (lru_size (cache_cache c)) (recently_used (access_key <$> acc)) ∧
  (∀ k0 h2, last (recently_used (access_key <$> acc)) = Some k0 →
     calls (cache_base (cache_Get k0 c' h2).2.1) =
       calls (cache_base c') ++ [CallGet k0]) ∧
  (∀ k h2,
     k ∈ take (lru_size (cache_cache c)) (recently_used (access_key <$> acc)) →
     (cache_Get k c' h2).1.2 = None ∧
     cache_base (cache_Get k c' h2).2.1 = cache_base c').
Proof.
  intros Hok Hall Hlen. pose proof Hok as [Hsz Hle].
  set (R := recently_used (access_key <$> acc)) in *.
  set (n := lru_size (cache_cache c)) in *.
  assert (HndR : NoDup R) by (apply NoDup_foldl_touch, NoDup_nil_2).
  destruct (access_all_keys acc c c' h h' [] (lru_keys (cache_cache c)) Hok)
    as [_ [rest' Hk]]; [apply NoDup_nil_2| |done|].
  { simpl. rewrite take_ge; [done|]. unfold lru_keys. by rewrite length_fmap. }
  fold n in Hk. change (foldl _ [] _) with R in Hk.
  rewrite take_app_le in Hk by lia.
  split; [exact Hk|]. split.
  - intros k0 h2 Hlast.
    assert (Hmiss : lru_find k0 (cache_cache c') = None).
    { apply lru_find_absent. rewrite Hk. intros Hin.
      rewrite <- (take_drop n R) in HndR, Hlast.
      apply NoDup_app in HndR as (_ & Hdisj & _).
      apply (Hdisj k0 Hin).
      destruct (drop n R) as [|x [|y t]] eqn:Hd.
      - apply (f_equal length) in Hd. rewrite length_drop in Hd.
        simpl in Hd. lia.
      - rewrite last_snoc in Hlast. injection Hlast as ->.
        apply elem_of_cons. by left.
      - apply (f_equal length) in Hd. rewrite length_drop in Hd.
        simpl in Hd. lia. }
    unfold cache_Get. rewrite (lru_Get_miss _ _ Hmiss).
    pose proof (traced_Get_records k0 (cache_base c') h2) as Hrec.
    destruct (os_Get k0 (cache_base c') h2) as [[data e] [t2 h3]].
    simpl in Hrec. destruct e as [e|]; [done|]. by destruct (dup data h3).
  - intros k h2 Hin. rewrite <- Hk in Hin.
    apply lru_find_present in Hin as [v Hv].
    destruct (cache_Get_cached k c' v h2 Hv) as (r & c2 & h3 & -> & _ & Hb & _).
    done.
Qed.

(** ** The theorems at concrete inputs *)

Lemma Get_after_Set_witness :
  let st := os_Set "a" (Ref 0) example_store example_heap in
  configured example_shape example_store ∧
  live example_heap (Ref 0) ∧
  st = (None, st.2) ∧
  ∃ r s2 h2,
    os_Get "a" st.2.1 st.2.2 = ((r, None), (s2, h2)) ∧
    contents h2 r = contents example_heap (Ref 0).
Proof.
  intros st.
  assert (Hc : configured example_shape example_store).
  { repeat split; simpl; lia. }
  assert (Hl : live example_heap (Ref 0)) by (simpl; lia).
  assert (Hs : st = (None, (st.2.1, st.2.2))) by (vm_compute; reflexivity).
  split; [exact Hc|]. split; [exact Hl|]. split; [by vm_compute|].
  exact (Get_after_Set example_shape example_store st.2.1 "a" (Ref 0)
           example_heap st.2.2 Hc Hl Hs).
Defined.

Lemma Get_unset_not_found_witness :
  fresh example_shape example_store ∧
  was_set "a" (run example_ops example_store []).1 false = false ∧
  os_Get "a" (run example_ops example_store []).2.1
             (run example_ops example_store []).2.2 =
    ((Nil, Some ErrObjectNotFound), (run example_ops example_store []).2).
Proof.
  assert (Hf : fresh example_shape example_store).
  { split; [split; [reflexivity|reflexivity]|]. exists 2%Z. reflexivity. }
  assert (Hw : was_set "a" (run example_ops example_store []).1 false = false)
    by (vm_compute; reflexivity).
  split; [exact Hf|]. split; [exact Hw|].
  exact (Get_unset_not_found example_shape example_store [] example_ops "a"
           Hf Hw).
Defined.

Lemma cache_evicts_least_recent_witness :
  let st := default (example_cache, []) (access_all example_accesses
                                           example_cache example_heap) in
  lru_ok (cache_cache example_cache) ∧
  access_all example_accesses example_cache example_heap = Some st ∧
  recently_used (access_key <$> example_accesses) = ["c"; "a"; "b"] ∧
  lru_keys (cache_cache st.1) = ["c"; "a"] ∧
  (∀ k0 h2, last (recently_used (access_key <$> example_accesses)) = Some k0 →
     calls (cache_base (cache_Get k0 st.1 h2).2.1) =
       calls (cache_base st.1) ++ [CallGet k0]) ∧
  (∀ k h2,
     k ∈ take (lru_size (cache_cache example_cache))
              (recently_used (access_key <$> example_accesses)) →
     (cache_Get k st.1 h2).1.2 = None ∧
     cache_base (cache_Get k st.1 h2).2.1 = cache_base st.1).
Proof.
  intros st.
  assert (Hok : lru_ok (cache_cache example_cache)) by (split; simpl; lia).
  assert (Hall : access_all example_accesses example_cache example_heap
                 = Some (st.1, st.2)) by (vm_compute; reflexivity).
  assert (Hlen : length (recently_used (access_key <$> example_accesses))
                 = S (lru_size (cache_cache example_cache)))
    by (vm_compute; reflexivity).
  destruct (cache_evicts_least_recent example_cache st.1 example_heap st.2
              example_accesses Hok Hall Hlen) as (_ & Hfirst & Hothers).
  split; [exact Hok|]. split; [by vm_compute|].
  split; [by vm_compute|]. split; [by vm_compute|].
  split; [exact Hfirst|exact Hothers].
Defined.

Lemma cache_Set_failure_not_cached_witness :
  let c := mk_cache (flaky [Some (ErrOther "disk full")])
                    (mk_lru 2 [("a", Nil)]) in
  let t1 := mk_traced (mk_scripted [] ∅) [CallSet "a" (Ref 0)] in
  let c1 := mk_cache t1 (lru_Remove "a" (cache_cache c)) in
  os_Set "a" (Ref 0) (cache_base c) example_heap
    = (Some (ErrOther "disk full"), (t1, example_heap)) ∧
  cache_Set "a" (Ref 0) c example_heap
    = (Some (ErrOther "disk full"), (c1, example_heap)) ∧
  ("a" ∉ lru_keys (cache_cache c1)) ∧
  ∀ h2 : heap,
    calls (cache_base (cache_Get "a" c1 h2).2.1) = calls t1 ++ [CallGet "a"] ∧
    (cache_Get "a" c1 h2).1.2 = (os_Get "a" t1 h2).1.2.
Proof.
  intros c t1 c1.
  assert (Hs : os_Set "a" (Ref 0) (cache_base c) example_heap
               = (Some (ErrOther "disk full"), (t1, example_heap)))
    by reflexivity.
  split; [exact Hs|].
  exact (cache_Set_failure_not_cached c "a" (Ref 0) example_heap
           (ErrOther "disk full") t1 example_heap Hs).
Defined.

Lemma retry_attempts_bounded_witness :
  let t := flaky [Some (ErrOther "timeout"); Some (ErrOther "timeout")] in
  (0 < 3)%Z ∧
  retried (os_Get "a") (λ r, nil_or_not_found r.2) (CallGet "a") 3 t []
    (retry_Get "a" (mk_retry t 3) []) ∧
  retried (os_Set "a" Nil) is_nil (CallSet "a" Nil) 3 t []
    (retry_Set "a" Nil (mk_retry t 3) []) ∧
  retried (os_Delete "a") is_nil (CallDelete "a") 3 t []
    (retry_Delete "a" (mk_retry t 3) []).
Proof.
  intros t. assert (HN : (0 < 3)%Z) by lia.
  split; [exact HN|].
  exact (retry_attempts_bounded 3 t "a" Nil [] HN).
Defined.

Lemma retry_Get_not_found_terminal_witness :
  let t := flaky [Some (ErrOther "timeout"); Some ErrObjectNotFound] in
  1 < Z.to_nat 5 ∧
  (∀ j, j < 1 → nil_or_not_found (nth_call (os_Get "a") j t []).1.2 = false) ∧
  (nth_call (os_Get "a") 1 t []).1.2 = Some ErrObjectNotFound ∧
  retry_Get "a" (mk_retry t 5) [] = under_retry 5 (nth_call (os_Get "a") 1 t []) ∧
  (retry_Get "a" (mk_retry t 5) []).1.2 = Some ErrObjectNotFound ∧
  calls (retry_base (retry_Get "a" (mk_retry t 5) []).2.1) =
    calls t ++ replicate 2 (CallGet "a").
Proof.
  intros t.
  assert (Hi : 1 < Z.to_nat 5) by (vm_compute; lia).
  assert (Hb : ∀ j, j < 1 →
            nil_or_not_found (nth_call (os_Get "a") j t []).1.2 = false).
  { intros j Hj. assert (j = 0) as -> by lia. reflexivity. }
  assert (Hn : (nth_call (os_Get "a") 1 t []).1.2 = Some ErrObjectNotFound)
    by reflexivity.
  split; [exact Hi|]. split; [exact Hb|]. split; [exact Hn|].
  exact (retry_Get_not_found_terminal 5 t "a" [] 1 Hi Hb Hn).
Defined.

Lemma cache_Get_after_Set_cached_witness :
  let c := mk_cache (mk_traced (∅ : memory) []) (mk_lru 1 []) in
  let st := cache_Set "a" (Ref 0) c example_heap in
  0 < lru_size (cache_cache c) ∧
  live example_heap (Ref 0) ∧
  st = (None, st.2) ∧
  ∃ r c2 h2,
    cache_Get "a" st.2.1 st.2.2 = ((r, None), (c2, h2)) ∧
    contents h2 r = contents example_heap (Ref 0) ∧
    cache_base c2 = cache_base st.2.1 ∧
    calls (cache_base c2) = calls (cache_base st.2.1).
Proof.
  intros c st.
  assert (Hsz : 0 < lru_size (cache_cache c)) by (simpl; lia).
  assert (Hl : live example_heap (Ref 0)) by (simpl; lia).
  assert (Hs : cache_Set "a" (Ref 0) c example_heap = (None, (st.2.1, st.2.2)))
    by (vm_compute; reflexivity).
  split; [exact Hsz|]. split; [exact Hl|]. split; [by vm_compute|].
  exact (cache_Get_after_Set_cached c st.2.1 "a" (Ref 0) example_heap st.2.2
           Hsz Hl Hs).
Defined.

Lemma cache_Get_miss_failure_witness :
  let c := mk_cache (flaky [Some (ErrOther "timeout")]) (mk_lru 1 [("b", Nil)]) in
  let t1 := mk_traced (mk_scripted [] ∅) [CallGet "a"] in
  lru_find "a" (cache_cache c) = None ∧
  os_Get "a" (cache_base c) [] = ((Nil, Some (ErrOther "timeout")), (t1, [])) ∧
  cache_Get "a" c [] =
    ((Nil, Some (ErrOther "timeout")), (mk_cache t1 (cache_cache c), [])) ∧
  cache_cache (cache_Get "a" c []).2.1 = cache_cache c.
Proof.
  intros c t1.
  assert (Hm : lru_find "a" (cache_cache c) = None) by reflexivity.
  assert (Hg : os_Get "a" (cache_base c) []
               = ((Nil, Some (ErrOther "timeout")), (t1, []))) by reflexivity.
  split; [exact Hm|]. split; [exact Hg|].
  exact (cache_Get_miss_failure c "a" [] Nil (ErrOther "timeout") t1 [] Hm Hg).
Defined.

Lemma defensive_copies_witness :
  let st := memory_Set "a" (Ref 0) NewMemory example_heap in
  live example_heap (Ref 0) ∧
  ∃ r h2,
    memory_Get "a" st.2.1 (mutate (Ref 0) [Byte.x7a] st.2.2)
      = ((r, None), (st.2.1, h2)) ∧
    contents h2 r = [Byte.x61].
Proof.
  intros st.
  assert (Hl : live example_heap (Ref 0)) by (simpl; lia).
  split; [exact Hl|].
  destruct (defensive_copies (B := memory) "a" (Ref 0) [Byte.x7a]
              example_heap Hl) as (Hin & _).
  apply (Hin NewMemory st.2.1 st.2.2 st.1). by vm_compute.
Defined.

(** ** The scenarios of the specification *)

(** [Set("a","1")], [Set("b","2")], [Get("a")], [Delete("a")], [Get("a")],
    [Get("b")] on the memory store: only the [Get] after the [Delete]
    fails. *)
Example memory_scenario :
  (run [OpSet "a" [Byte.x31]; OpSet "b" [Byte.x32]; OpGet "a"; OpDelete "a";
        OpGet "a"; OpGet "b"] NewMemory []).1.*2
  = [None; None; None; None; Some ErrObjectNotFound; None].
Proof. by vm_compute. Qed.

(** A cache of capacity 1 over the memory store: after [Set("a")] and
    [Set("b")] the cache holds only ["b"], and a [Get("a")] is served by the
    backend and takes the place of ["b"]. *)
Example cache_scenario :
  let c := mk_cache (mk_traced NewMemory []) (mk_lru 1 []) in
  let st := run [OpSet "a" [Byte.x31]; OpSet "b" [Byte.x32]] c [] in
  lru_keys (cache_cache st.2.1) = ["b"] ∧
  let g := cache_Get "a" st.2.1 st.2.2 in
  contents g.2.2 g.1.1 = [Byte.x31] ∧
  lru_keys (cache_cache g.2.1) = ["a"] ∧
  calls (cache_base g.2.1) =
    [CallSet "a" (Ref 0); CallSet "b" (Ref 3); CallGet "a"].
Proof. by vm_compute. Qed.

(** [NewRetry] refuses a number of attempts that is not positive. *)
Example NewRetry_rejects_zero :
  (NewRetry NewMemory 0).1 = None ∧ (NewRetry NewMemory (-1)).1 = None.
Proof. done. Qed.


(** * Further properties of the stores *)

(** ** Cache entries under the LRU operations *)

Lemma lru_assoc_drop_ne (key k : string) (items : list (string * slice)) :
  k ≠ key → lru_assoc k (lru_drop key items) = lru_assoc k items.
Proof.
  intros Hne. induction items as [|[k0 v0] items IH]; [done|].
  unfold lru_drop in *. simpl. destruct (decide (k0 = key)) as [->|Hk0].
  - rewrite filter_cons_False by (simpl; tauto).
    rewrite decide_False by congruence. done.
  - rewrite filter_cons_True by done. simpl.
    destruct (decide (k0 = k)); [done|apply IH].
Qed.

Lemma lru_assoc_removelast (k : string) (d : slice)
    (items : list (string * slice)) :
  lru_assoc k (removelast items) = Some d → lru_assoc k items = Some d.
Proof.
  induction items as [|[k0 v0] items IH]; [done|].
  destruct items as [|x items]; [done|].
  change (removelast ((k0, v0) :: x :: items))
    with ((k0, v0) :: removelast (x :: items)).
  simpl lru_assoc at 1. simpl lru_assoc at 2.
  destruct (decide (k0 = k)); [done|]. apply IH.
Qed.

Lemma lru_find_Remove_ne (key k : string) (c : lru) :
  k ≠ key → lru_find k (lru_Remove key c) = lru_find k c.
Proof. intros Hne. unfold lru_find, lru_Remove. simpl. by apply lru_assoc_drop_ne. Qed.

Lemma lru_find_Add_ne (key k : string) (v d : slice) (c : lru) :
  k ≠ key → lru_find k (lru_Add key v c) = Some d → lru_find k c = Some d.
Proof.
  intros Hne. unfold lru_Add, lru_find.
  destruct (lru_assoc key (lru_items c)) as [w|]; cbn [lru_items].
  - simpl. rewrite decide_False by congruence. by rewrite lru_assoc_drop_ne.
  - destruct (decide _).
    + intros H%lru_assoc_removelast. simpl in H.
      by rewrite decide_False in H by congruence.
    + simpl. by rewrite decide_False by congruence.
Qed.

Lemma lru_find_Get_ne (key k : string) (c : lru) :
  k ≠ key → lru_find k (lru_Get key c).2 = lru_find k c.
Proof.
  intros Hne. unfold lru_Get. destruct (lru_find key c) as [v|]; [|done].
  unfold lru_find. simpl. rewrite decide_False by congruence.
  by apply lru_assoc_drop_ne.
Qed.

(** ** The contract of a composition *)

(** Allocation leaves a coherent composition coherent and its bytes as they
    are. *)
Lemma coherent_prefix (sh : shape) :
  ∀ (s : store sh) (h h' : heap),
    coherent sh s h → h `prefix_of` h' →
    coherent sh s h' ∧ view sh s h' = view sh s h.
Proof.
  induction sh as [|sh IH|sh IH]; simpl store; intros s h h' Hco Hp.
  - simpl in *. split.
    + intros k d Hk. eapply live_prefix; [done|]. by eapply Hco.
    + apply map_fmap_ext. intros k d Hk. apply contents_prefix; [done|].
      by eapply Hco.
  - destruct s as [b N]. simpl in *. by apply IH.
  - destruct s as [b cc]. destruct Hco as [Hent Hco]. simpl in Hent, Hco.
    destruct (IH b h h' Hco Hp) as [Hco' Hview]. simpl.
    split; [split; [|done]|done].
    intros k d Hf. destruct (Hent k d Hf) as [Hl Hv].
    split; [by eapply live_prefix|].
    rewrite Hview, Hv. f_equal. symmetry. by apply contents_prefix.
Qed.

(** What each method does to the stored bytes, for every configured and
    coherent composition. *)
Lemma composition_contract (sh : shape) :
  ∀ (s : store sh) (h : heap) (key : string),
    configured sh s → coherent sh s h →
    (∀ d e s' h', os_Get key s h = ((d, e), (s', h')) →
       coherent sh s' h' ∧ view sh s' h' = view sh s h ∧ live h' d ∧
       match view sh s h !! key with
       | Some bs => e = None ∧ contents h' d = bs
       | None => e = Some ErrObjectNotFound ∧ d = Nil
       end) ∧
    (∀ v e s' h', live h v → os_Set key v s h = (e, (s', h')) →
       e = None ∧ coherent sh s' h' ∧
       view sh s' h' = <[key := contents h v]> (view sh s h)) ∧
    (∀ e s' h', os_Delete key s h = (e, (s', h')) →
       e = None ∧ coherent sh s' h' ∧
       view sh s' h' = delete key (view sh s h)).
Proof.
  induction sh as [|sh IH|sh IH]; simpl store; intros s h key Hc Hco.
  - simpl in Hco. split; [|split].
    + intros d e s' h'. simpl. unfold memory_Get. rewrite lookup_fmap.
      destruct (s !! key) as [d0|] eqn:Hm; simpl.
      * destruct (dup d0 h) as [out h1] eqn:Hd. intros [= <- <- <- <-].
        destruct (coherent_prefix Mem s h h1 Hco) as [Hco1 Hv1];
          [by eapply dup_prefix|].
        split; [exact Hco1|]. split; [exact Hv1|].
        split; [by eapply dup_live|]. split; [done|by eapply dup_contents].
      * intros [= <- <- <- <-]. done.
    + intros v e s' h' Hl. simpl. unfold memory_Set.
      destruct (dup v h) as [d h1] eqn:Hd. intros [= <- <- <-].
      pose proof (dup_prefix _ _ _ _ Hd) as Hp.
      split; [done|]. split.
      * intros k d' Hk. apply lookup_insert_Some in Hk as [[_ <-]|[_ Hk]].
        -- by eapply dup_live.
        -- eapply live_prefix; [done|]. by eapply Hco.
      * rewrite fmap_insert, (dup_contents _ _ _ _ Hd). f_equal.
        apply map_fmap_ext. intros k d' Hk. apply contents_prefix; [done|].
        by eapply Hco.
    + intros e s' h'. simpl. unfold memory_Delete. intros [= <- <- <-].
      split; [done|]. split.
      * intros k d' Hk. apply lookup_delete_Some in Hk as [_ Hk].
        by eapply Hco.
      * apply fmap_delete.
  - destruct s as [b N]. destruct Hc as [HN Hc]. simpl in HN, Hc, Hco.
    destruct (IH b h key Hc Hco) as (HG & HS & HD). split; [|split].
    + intros d e s' h'.
      change (os_Get key (mk_retry b N) h) with (retry_Get key (mk_retry b N) h).
      rewrite retry_Get_unfold.
      destruct (os_Get key b h) as [[d1 e1] [b1 h1]] eqn:Hg.
      specialize (HG d1 e1 b1 h1 eq_refl).
      assert (Hstop : nil_or_not_found e1 = true).
      { destruct HG as (_ & _ & _ & HG).
        destruct (view sh b h !! key); by destruct HG as [-> _]. }
      rewrite (first_attempts_stop _ _ (Z.to_nat N) _ (d1, e1) b b1 h h1)
        by (done || lia).
      unfold under_retry. simpl. intros [= <- <- <- <-]. exact HG.
    + intros v e s' h' Hl.
      change (os_Set key v (mk_retry b N) h)
        with (retry_Set key v (mk_retry b N) h).
      rewrite retry_Set_unfold.
      destruct (os_Set key v b h) as [e1 [b1 h1]] eqn:Hs.
      specialize (HS v e1 b1 h1 Hl Hs).
      assert (Hstop : is_nil e1 = true) by (by destruct HS as [-> _]).
      rewrite (first_attempts_stop _ _ (Z.to_nat N) _ e1 b b1 h h1)
        by (done || lia).
      unfold under_retry. simpl. intros [= <- <- <-]. exact HS.
    + intros e s' h'.
      change (os_Delete key (mk_retry b N) h)
        with (retry_Delete key (mk_retry b N) h).
      rewrite retry_Delete_unfold.
      destruct (os_Delete key b h) as [e1 [b1 h1]] eqn:Hs.
      specialize (HD e1 b1 h1 eq_refl).
      assert (Hstop : is_nil e1 = true) by (by destruct HD as [-> _]).
      rewrite (first_attempts_stop _ _ (Z.to_nat N) _ e1 b b1 h h1)
        by (done || lia).
      unfold under_retry. simpl. intros [= <- <- <-]. exact HD.
  - destruct s as [b cc]. destruct Hc as [Hok Hc]. destruct Hco as [Hent Hco].
    simpl in Hok, Hc, Hent, Hco.
    destruct (IH b h key Hc Hco) as (HG & HS & HD). split; [|split].
    + intros d e s' h'.
      change (os_Get key (mk_cache b cc) h)
        with (cache_Get key (mk_cache b cc) h).
      unfold cache_Get. cbn [cache_cache cache_base].
      destruct (lru_find key cc) as [d0|] eqn:Hf.
      * rewrite (lru_Get_hit _ _ _ Hf).
        destruct (dup d0 h) as [out h1] eqn:Hd. intros [= <- <- <- <-].
        pose proof (dup_prefix _ _ _ _ Hd) as Hp.
        destruct (Hent key d0 Hf) as [Hl0 Hv0].
        destruct (coherent_prefix sh b h h1 Hco Hp) as [Hco1 Hv1].
        cbn [view coherent cache_base cache_cache].
        split; [split; [|done]|].
        -- intros k d' Hk. unfold lru_find in Hk. simpl in Hk.
           destruct (decide (key = k)) as [<-|Hne].
           ++ injection Hk as <-. split; [by eapply live_prefix|].
              rewrite Hv1, Hv0. f_equal. symmetry. by apply contents_prefix.
           ++ rewrite lru_assoc_drop_ne in Hk by congruence.
              destruct (Hent k d' Hk) as [Hl' Hv'].
              split; [by eapply live_prefix|].
              rewrite Hv1, Hv'. f_equal. symmetry. by apply contents_prefix.
        -- split; [done|]. split; [by eapply dup_live|].
           rewrite Hv0. split; [done|by eapply dup_contents].
      * rewrite (lru_Get_miss _ _ Hf).
        destruct (os_Get key b h) as [[d1 e1] [b1 h1]] eqn:Hg.
        pose proof (Get_prefix _ _ _ _ _ _ Hg) as Hp.
        destruct (HG d1 e1 b1 h1 eq_refl) as (Hco1 & Hv1 & Hl1 & Hres).
        assert (Hent1 : ∀ k d', lru_find k cc = Some d' →
                  live h1 d' ∧ view sh b1 h1 !! k = Some (contents h1 d')).
        { intros k d' Hk. destruct (Hent k d' Hk) as [Hl' Hv'].
          split; [by eapply live_prefix|].
          rewrite Hv1, Hv'. f_equal. symmetry. by apply contents_prefix. }
        cbn [view coherent cache_base cache_cache].
        destruct e1 as [e1|].
        -- intros [= <- <- <- <-]. cbn [view coherent cache_base cache_cache].
           split; [by split|]. split; [done|]. split; [done|].
           destruct (view sh b h !! key); by destruct Hres.
        -- destruct (dup d1 h1) as [dc h2] eqn:Hd. intros [= <- <- <- <-].
           pose proof (dup_prefix _ _ _ _ Hd) as Hp2.
           destruct (coherent_prefix sh b1 h1 h2 Hco1 Hp2) as [Hco2 Hv2].
           cbn [view coherent cache_base cache_cache].
           destruct (view sh b h !! key) as [bs|] eqn:Hvk;
             [|by destruct Hres].
           destruct Hres as [_ Hbs].
           split; [split; [|done]|].
           ++ intros k d' Hk. destruct (decide (k = key)) as [->|Hne].
              ** rewrite lru_find_Add in Hk by (by destruct Hok).
                 injection Hk as <-. split; [by eapply dup_live|].
                 rewrite Hv2, Hv1, Hvk. f_equal.
                 by rewrite (dup_contents _ _ _ _ Hd).
              ** apply lru_find_Add_ne in Hk; [|done].
                 destruct (Hent1 k d' Hk) as [Hl' Hv'].
                 split; [by eapply live_prefix|].
                 rewrite Hv2, Hv'. f_equal. symmetry. by apply contents_prefix.
           ++ split; [by rewrite Hv2|]. split; [by eapply live_prefix|].
              split; [done|]. rewrite <- Hbs. by apply contents_prefix.
    + intros v e s' h' Hl.
      change (os_Set key v (mk_cache b cc) h)
        with (cache_Set key v (mk_cache b cc) h).
      unfold cache_Set. cbn [cache_cache cache_base].
      destruct (os_Set key v b h) as [e1 [b1 h1]] eqn:Hs.
      pose proof (Set_prefix _ _ _ _ _ _ _ Hs) as Hp.
      destruct (HS v e1 b1 h1 Hl Hs) as (-> & Hco1 & Hv1).
      destruct (dup v h1) as [dc h2] eqn:Hd. intros [= <- <- <-].
      pose proof (dup_prefix _ _ _ _ Hd) as Hp2.
      destruct (coherent_prefix sh b1 h1 h2 Hco1 Hp2) as [Hco2 Hv2].
      cbn [view coherent cache_base cache_cache].
      split; [done|]. split; [split; [|done]|by rewrite Hv2].
      intros k d' Hk. destruct (decide (k = key)) as [->|Hne].
      * rewrite lru_find_Add in Hk by (by destruct Hok).
        injection Hk as <-. split; [by eapply dup_live|].
        rewrite Hv2, Hv1, lookup_insert_eq. f_equal.
        rewrite (dup_contents _ _ _ _ Hd). symmetry. by apply contents_prefix.
      * apply lru_find_Add_ne in Hk; [|done].
        rewrite lru_find_Remove_ne in Hk by done.
        destruct (Hent k d' Hk) as [Hl' Hv'].
        split; [eapply live_prefix; [exact Hp2|by eapply live_prefix]|].
        rewrite Hv2, Hv1, lookup_insert_ne by done. rewrite Hv'. f_equal.
        symmetry. apply contents_prefix; [by etrans|done].
    + intros e s' h'.
      change (os_Delete key (mk_cache b cc) h)
        with (cache_Delete key (mk_cache b cc) h).
      unfold cache_Delete. cbn [cache_cache cache_base].
      destruct (os_Delete key b h) as [e1 [b1 h1]] eqn:Hs.
      pose proof (Delete_prefix _ _ _ _ _ _ Hs) as Hp.
      destruct (HD e1 b1 h1 eq_refl) as (-> & Hco1 & Hv1).
      intros [= <- <- <-]. cbn [view coherent cache_base cache_cache].
      split; [done|]. split; [split; [|done]|done].
      intros k d' Hk. destruct (decide (k = key)) as [->|Hne].
      * by rewrite lru_find_Remove in Hk.
      * rewrite lru_find_Remove_ne in Hk by done.
        destruct (Hent k d' Hk) as [Hl' Hv'].
        split; [by eapply live_prefix|].
        rewrite Hv1, lookup_delete_ne by done. rewrite Hv'. f_equal.
        symmetry. by apply contents_prefix.
Qed.

(** A freshly constructed composition is coherent and stores nothing. *)
Lemma fresh_coherent (sh : shape) :
  ∀ (s : store sh) (h : heap),
    fresh sh s → coherent sh s h ∧ view sh s h = ∅.
Proof.
  induction sh as [|sh IH|sh IH]; simpl store; intros s h Hf.
  - simpl in *. subst s. split; [|apply fmap_empty].
    intros k d Hk. unfold NewMemory in Hk. by rewrite lookup_empty in Hk.
  - destruct s as [b N]. destruct Hf as [Hb _]. simpl in *. by apply IH.
  - destruct s as [b cc]. destruct Hf as [Hb [size Hsz]]. simpl in Hb, Hsz.
    destruct (IH b h Hb) as [Hco Hv]. unfold NewCache in Hsz.
    destruct (lru_New size) as [[l|] [e|]] eqn:Hnew; try done.
    injection Hsz as ->. apply lru_New_ok in Hnew as [_ Hitems].
    simpl. split; [split; [|done]|done].
    intros k d Hk. unfold lru_find in Hk. by rewrite Hitems in Hk.
Qed.

Lemma Get_error (sh : shape) :
  ∀ (s : store sh) (h : heap) (key : string),
    configured sh s → nil_or_not_found (os_Get key s h).1.2 = true.
Proof.
  induction sh as [|sh IH|sh IH]; simpl store; intros s h key Hc.
  - simpl. unfold memory_Get. destruct (s !! key) as [d|]; [|done].
    by destruct (dup d h).
  - destruct s as [b N]. destruct Hc as [HN Hb]. simpl in HN, Hb.
    change (os_Get key (mk_retry b N) h) with (retry_Get key (mk_retry b N) h).
    rewrite retry_Get_unfold. specialize (IH b h key Hb).
    destruct (os_Get key b h) as [[d e] [b1 h1]] eqn:Hg. simpl in IH.
    by rewrite (first_attempts_stop _ _ (Z.to_nat N) _ (d, e) b b1 h h1)
      by (done || lia).
  - destruct s as [b cc]. destruct Hc as [Hok Hb]. simpl in Hok, Hb.
    change (os_Get key (mk_cache b cc) h)
      with (cache_Get key (mk_cache b cc) h).
    unfold cache_Get. cbn [cache_cache cache_base].
    destruct (lru_Get key cc) as [[val|] l1].
    + by destruct (dup val h).
    + specialize (IH b h key Hb).
      destruct (os_Get key b h) as [[d e] [b1 h1]]. simpl in IH.
      destruct e as [e|]; [done|]. by destruct (dup d h1).
Qed.

Lemma Delete_succeeds (sh : shape) :
  ∀ (s : store sh) (h : heap) (key : string),
    configured sh s → (os_Delete key s h).1 = None.
Proof.
  induction sh as [|sh IH|sh IH]; simpl store; intros s h key Hc.
  - done.
  - destruct s as [b N]. destruct Hc as [HN Hb]. simpl in HN, Hb.
    change (os_Delete key (mk_retry b N) h)
      with (retry_Delete key (mk_retry b N) h).
    rewrite retry_Delete_unfold. specialize (IH b h key Hb).
    destruct (os_Delete key b h) as [e [b1 h1]] eqn:Hs. simpl in IH. subst e.
    by rewrite (first_attempts_stop _ is_nil (Z.to_nat N) None None b b1 h h1)
      by (done || lia).
  - destruct s as [b cc]. destruct Hc as [Hok Hb]. simpl in Hok, Hb.
    change (os_Delete key (mk_cache b cc) h)
      with (cache_Delete key (mk_cache b cc) h).
    unfold cache_Delete. cbn [cache_cache cache_base].
    specialize (IH b h key Hb).
    by destruct (os_Delete key b h) as [e [b1 h1]].
Qed.

(** A run of client operations on a coherent composition is observed as the
    same run on the map of the bytes it stores. *)
Lemma observations_view (sh : shape) (ops : list op) :
  ∀ (s : store sh) (h : heap),
    configured sh s → coherent sh s h →
    observations ops s h = model_observations ops (view sh s h).
Proof.
  induction ops as [|o ops IH]; intros s h Hc Hco; [done|].
  destruct o as [k|k bs|k]; simpl.
  - destruct (os_Get k s h) as [[d e] [s1 h1]] eqn:Hg.
    destruct (composition_contract sh s h k Hc Hco) as (HG & _ & _).
    destruct (HG d e s1 h1 Hg) as (Hco1 & Hv1 & _ & Hres).
    destruct (configured_kept sh s s1 h h1 k Hc) as (HcG & _ & _).
    rewrite (IH s1 h1) by eauto. rewrite Hv1.
    destruct (view sh s h !! k) as [bs|].
    + by destruct Hres as [-> ->].
    + by destruct Hres as [-> ->].
  - destruct (coherent_prefix sh s h (h ++ [bs]) Hco) as [Hco0 Hv0];
      [by apply prefix_app_r|].
    destruct (os_Set k (Ref (length h)) s (h ++ [bs])) as [e [s1 h1]] eqn:Hs.
    destruct (composition_contract sh s (h ++ [bs]) k Hc Hco0) as (_ & HS & _).
    destruct (HS (Ref (length h)) e s1 h1) as (-> & Hco1 & Hv1); [|done|].
    { simpl. rewrite length_app. simpl. lia. }
    destruct (configured_kept sh s s1 (h ++ [bs]) h1 k Hc) as (_ & HcS & _).
    rewrite (IH s1 h1) by eauto. rewrite Hv1, Hv0.
    unfold contents. by rewrite list_lookup_middle.
  - destruct (os_Delete k s h) as [e [s1 h1]] eqn:Hd.
    destruct (composition_contract sh s h k Hc Hco) as (_ & _ & HD).
    destruct (HD e s1 h1 Hd) as (-> & Hco1 & Hv1).
    destruct (configured_kept sh s s1 h h1 k Hc) as (_ & _ & HcD).
    rewrite (IH s1 h1) by eauto. by rewrite Hv1.
Qed.


Lemma example_full_configured : configured example_shape example_full.
Proof. repeat split; simpl; lia. Qed.

Lemma example_full_coherent :
  coherent example_shape example_full example_full_heap.
Proof.
  split.
  - intros k d. unfold lru_find. simpl.
    destruct (decide ("a" = k)) as [<-|Hne]; [|done].
    intros [= <-]. split; [simpl; lia|].
    rewrite lookup_fmap, lookup_singleton_eq. done.
  - intros k d Hk. simpl in Hk.
    apply lookup_singleton_Some in Hk as [_ <-]. simpl. lia.
Qed.

(** X10: a configured composition over the memory store has no failure of
    its own: [Set] and [Delete] always return a nil error, and the only
    error a [Get] can return is NotFound. *)
Theorem composition_errors (sh : shape) (s : store sh) (h : heap)
    (key : string) (v : slice) :
  configured sh s →
  ((os_Get key s h).1.2 = None ∨
   (os_Get key s h).1.2 = Some ErrObjectNotFound) ∧
  (os_Set key v s h).1 = None ∧
  (os_Delete key s h).1 = None.
Proof.
  intros Hc. split; [|split].
  - pose proof (Get_error sh s h key Hc) as He.
    destruct ((os_Get key s h).1.2) as [[|msg]|]; [by right|done|by left].
  - by apply Set_succeeds.
  - by apply Delete_succeeds.
Qed.

Lemma composition_errors_witness :
  configured example_shape example_full ∧
  ((os_Get "z" example_full example_full_heap).1.2 = None ∨
   (os_Get "z" example_full example_full_heap).1.2 = Some ErrObjectNotFound) ∧
  (os_Set "z" (Ref 0) example_full example_full_heap).1 = None ∧
  (os_Delete "z" example_full example_full_heap).1 = None.
Proof.
  split; [exact example_full_configured|].
  exact (composition_errors example_shape example_full example_full_heap "z"
           (Ref 0) example_full_configured).
Defined.

(** X11: on a configured and coherent composition, [Get] returns the bytes
    stored under the key with a nil error, or NotFound and a nil slice when
    there are none; it leaves the stored bytes of every key as they are and
    the composition configured and coherent. *)
Theorem composition_Get_contract (sh : shape) (s s' : store sh) (h h' : heap)
    (key : string) (d : slice) (e : option error) :
  configured sh s → coherent sh s h →
  os_Get key s h = ((d, e), (s', h')) →
  configured sh s' ∧ coherent sh s' h' ∧
  view sh s' h' = view sh s h ∧
  match view sh s h !! key with
  | Some bs => e = None ∧ contents h' d = bs
  | None => e = Some ErrObjectNotFound ∧ d = Nil
  end.
Proof.
  intros Hc Hco Hg.
  destruct (configured_kept sh s s' h h' key Hc) as (HcG & _ & _).
  destruct (composition_contract sh s h key Hc Hco) as (HG & _ & _).
  destruct (HG d e s' h' Hg) as (Hco' & Hv & _ & Hres).
  split; [eauto|]. by split.
Qed.

Lemma composition_Get_contract_witness :
  let r := os_Get "a" example_full example_full_heap in
  configured example_shape example_full ∧
  coherent example_shape example_full example_full_heap ∧
  r = (r.1, r.2) ∧
  r.1.2 = None ∧ contents r.2.2 r.1.1 = [Byte.x61] ∧
  view example_shape r.2.1 r.2.2
    = view example_shape example_full example_full_heap.
Proof.
  intros r.
  assert (Hr : r = ((r.1.1, r.1.2), (r.2.1, r.2.2))) by (by vm_compute).
  destruct (composition_Get_contract example_shape example_full r.2.1
              example_full_heap r.2.2 "a" r.1.1 r.1.2
              example_full_configured example_full_coherent Hr)
    as (_ & _ & Hv & Hres).
  split; [exact example_full_configured|].
  split; [exact example_full_coherent|].
  split; [by vm_compute|]. split; [by vm_compute|].
  split; [by vm_compute|]. exact Hv.
Defined.

(** X12: on a configured and coherent composition, [Set key v] with a live
    buffer succeeds and stores the bytes of [v] under [key], leaving the
    bytes of every other key as they are. *)
Theorem composition_Set_contract (sh : shape) (s s' : store sh) (h h' : heap)
    (key : string) (v : slice) (e : option error) :
  configured sh s → coherent sh s h → live h v →
  os_Set key v s h = (e, (s', h')) →
  e = None ∧ configured sh s' ∧ coherent sh s' h' ∧
  view sh s' h' = <[key := contents h v]> (view sh s h).
Proof.
  intros Hc Hco Hl Hs.
  destruct (configured_kept sh s s' h h' key Hc) as (_ & HcS & _).
  destruct (composition_contract sh s h key Hc Hco) as (_ & HS & _).
  destruct (HS v e s' h' Hl Hs) as (He & Hco' & Hv).
  split; [done|]. split; [eauto|]. by split.
Qed.

Lemma composition_Set_contract_witness :
  let r := os_Set "b" (Ref 0) example_full example_full_heap in
  configured example_shape example_full ∧
  coherent example_shape example_full example_full_heap ∧
  live example_full_heap (Ref 0) ∧
  r = (r.1, r.2) ∧
  r.1 = None ∧
  view example_shape r.2.1 r.2.2
    = <["b" := contents example_full_heap (Ref 0)]>
        (view example_shape example_full example_full_heap).
Proof.
  intros r.
  assert (Hl : live example_full_heap (Ref 0)) by (simpl; lia).
  assert (Hr : r = (r.1, (r.2.1, r.2.2))) by (by vm_compute).
  destruct (composition_Set_contract example_shape example_full r.2.1
              example_full_heap r.2.2 "b" (Ref 0) r.1
              example_full_configured example_full_coherent Hl Hr)
    as (He & _ & _ & Hv).
  split; [exact example_full_configured|].
  split; [exact example_full_coherent|].
  split; [exact Hl|]. split; [by vm_compute|]. split; [exact He|exact Hv].
Defined.

(** X13: on a configured and coherent composition, [Delete key] succeeds,
    whether or not the key is stored, and removes the bytes stored under
    [key], leaving the bytes of every other key as they are. *)
Theorem composition_Delete_contract (sh : shape) (s s' : store sh)
    (h h' : heap) (key : string) (e : option error) :
  configured sh s → coherent sh s h →
  os_Delete key s h = (e, (s', h')) →
  e = None ∧ configured sh s' ∧ coherent sh s' h' ∧
  view sh s' h' = delete key (view sh s h).
Proof.
  intros Hc Hco Hd.
  destruct (configured_kept sh s s' h h' key Hc) as (_ & _ & HcD).
  destruct (composition_contract sh s h key Hc Hco) as (_ & _ & HD).
  destruct (HD e s' h' Hd) as (He & Hco' & Hv).
  split; [done|]. split; [eauto|]. by split.
Qed.

Lemma composition_Delete_contract_witness :
  let r := os_Delete "a" example_full example_full_heap in
  configured example_shape example_full ∧
  coherent example_shape example_full example_full_heap ∧
  r = (r.1, r.2) ∧
  r.1 = None ∧
  view example_shape r.2.1 r.2.2
    = delete "a" (view example_shape example_full example_full_heap).
Proof.
  intros r.
  assert (Hr : r = (r.1, (r.2.1, r.2.2))) by (by vm_compute).
  destruct (composition_Delete_contract example_shape example_full r.2.1
              example_full_heap r.2.2 "a" r.1
              example_full_configured example_full_coherent Hr)
    as (He & _ & _ & Hv).
  split; [exact example_full_configured|].
  split; [exact example_full_coherent|].
  split; [by vm_compute|]. split; [exact He|exact Hv].
Defined.

(** X14: no method of any composition writes into an existing array: the
    bytes of every slice that is live before a [Get], [Set] or [Delete] are
    the same after it, the buffer passed to [Set] included. *)
Theorem composition_preserves_buffers (sh : shape) (s : store sh) (h : heap)
    (key : string) (v x : slice) :
  live h x →
  contents (os_Get key s h).2.2 x = contents h x ∧
  contents (os_Set key v s h).2.2 x = contents h x ∧
  contents (os_Delete key s h).2.2 x = contents h x.
Proof.
  intros Hl. split; [|split].
  - destruct (os_Get key s h) as [r [s1 h1]] eqn:Hg.
    apply contents_prefix; [|done]. by eapply Get_prefix.
  - destruct (os_Set key v s h) as [r [s1 h1]] eqn:Hs.
    apply contents_prefix; [|done]. by eapply Set_prefix.
  - destruct (os_Delete key s h) as [r [s1 h1]] eqn:Hd.
    apply contents_prefix; [|done]. by eapply Delete_prefix.
Qed.

Lemma composition_preserves_buffers_witness :
  live example_full_heap (Ref 0) ∧
  contents (os_Get "a" example_full example_full_heap).2.2 (Ref 0)
    = contents example_full_heap (Ref 0) ∧
  contents (os_Set "a" (Ref 0) example_full example_full_heap).2.2 (Ref 0)
    = contents example_full_heap (Ref 0) ∧
  contents (os_Delete "a" example_full example_full_heap).2.2 (Ref 0)
    = contents example_full_heap (Ref 0).
Proof.
  assert (Hl : live example_full_heap (Ref 0)) by (simpl; lia).
  split; [exact Hl|].
  exact (composition_preserves_buffers example_shape example_full
           example_full_heap "a" (Ref 0) (Ref 0) Hl).
Defined.

(** X15: the slice a [Get] of any composition returns is nil or lies over
    an array allocated during the call: it aliases no buffer that existed
    before. *)
Theorem composition_Get_fresh_buffer (sh : shape) :
  ∀ (s : store sh) (h : heap) (key : string) (l : loc),
    (os_Get key s h).1.1 = Ref l → length h ≤ l.
Proof.
  induction sh as [|sh IH|sh IH]; simpl store; intros s h key l.
  - simpl. unfold memory_Get. destruct (s !! key) as [d|]; [|done].
    destruct (dup d h) as [out h1] eqn:Hd. simpl. intros ->.
    by eapply dup_fresh.
  - destruct s as [b N].
    change (os_Get key (mk_retry b N) h) with (retry_Get key (mk_retry b N) h).
    rewrite retry_Get_unfold.
    destruct (decide (0 < Z.to_nat N)) as [HN|HN].
    + destruct (first_attempts_spec (os_Get key)
                  (λ r, nil_or_not_found r.2) (Z.to_nat N) (Nil, None) b h HN)
        as (i & _ & -> & _).
      destruct (nth_call (os_Get key) i b h) as [[d e] [b1 h1]] eqn:Hnth.
      unfold under_retry. simpl. intros ->.
      destruct (nth_call_inv (os_Get key) (λ _ h0, h `prefix_of` h0)
                  i b b1 h h1 (Ref l, e)) as (b0 & h0 & Hp & Hg); [|done|done|].
      { intros b2 h2 r2 b2' h2' Hp2 Hf. etrans; [exact Hp2|].
        by eapply Get_prefix. }
      specialize (IH b0 h0 key l). rewrite Hg in IH.
      apply prefix_length in Hp. specialize (IH eq_refl). lia.
    + replace (Z.to_nat N) with 0 by lia. done.
  - destruct s as [b cc].
    change (os_Get key (mk_cache b cc) h)
      with (cache_Get key (mk_cache b cc) h).
    unfold cache_Get. cbn [cache_cache cache_base].
    destruct (lru_Get key cc) as [[val|] l1].
    + destruct (dup val h) as [out h1] eqn:Hd. simpl. intros ->.
      by eapply dup_fresh.
    + specialize (IH b h key l).
      destruct (os_Get key b h) as [[d e] [b1 h1]]. simpl in IH.
      destruct e as [e|]; [done|]. by destruct (dup d h1).
Qed.

Lemma composition_Get_fresh_buffer_witness :
  (os_Get "a" example_full example_full_heap).1.1 = Ref 3 ∧
  length example_full_heap ≤ 3.
Proof.
  assert (Hg : (os_Get "a" example_full example_full_heap).1.1 = Ref 3)
    by (by vm_compute).
  split; [exact Hg|].
  exact (composition_Get_fresh_buffer example_shape example_full
           example_full_heap "a" 3 Hg).
Defined.

(** X16: a freshly built composition of retry and cache decorators over the
    memory store is a map from keys to byte strings: for every sequence of
    operations, the errors and the bytes its [Get]s return are those of the
    reference map started empty, and hence those of the bare memory store
    on the same sequence. *)
Theorem composition_refines_map (sh : shape) (s0 : store sh) (h0 h1 : heap)
    (ops : list op) :
  fresh sh s0 →
  observations ops s0 h0 = model_observations ops ∅ ∧
  observations ops s0 h0 = observations ops NewMemory h1.
Proof.
  intros Hf. destruct (fresh_configured sh s0 Hf) as [Hc _].
  destruct (fresh_coherent sh s0 h0 Hf) as [Hco Hv].
  assert (Hm : observations ops s0 h0 = model_observations ops ∅).
  { rewrite (observations_view sh ops s0 h0 Hc Hco). by rewrite Hv. }
  split; [exact Hm|]. rewrite Hm.
  assert (Hfm : fresh Mem NewMemory) by done.
  destruct (fresh_coherent Mem NewMemory h1 Hfm) as [Hcom Hvm].
  pose proof (observations_view Mem ops NewMemory h1 I Hcom) as Hmem.
  rewrite Hvm in Hmem. symmetry. exact Hmem.
Qed.

Lemma composition_refines_map_witness :
  fresh example_shape example_store ∧
  observations example_ops example_store []
    = [([], None); ([], None); ([Byte.x31], None); ([], None);
       ([Byte.x32], None)] ∧
  observations example_ops example_store []
    = observations example_ops NewMemory [].
Proof.
  assert (Hf : fresh example_shape example_store).
  { split; [split; [reflexivity|reflexivity]|]. exists 2%Z. reflexivity. }
  destruct (composition_refines_map example_shape example_store [] []
              example_ops Hf) as [Hm He].
  split; [exact Hf|]. split; [by vm_compute|exact He].
Defined.

(** ** [dup] *)

(** X1: [dup] of the nil slice is the nil slice and allocates nothing;
    [dup] of any other slice is a slice over a newly allocated array, the
    next one of the heap, holding the same bytes.  Either way no existing
    array changes. *)
Theorem dup_copies_fresh (s out : slice) (h h' : heap) :
  dup s h = (out, h') →
  (s = Nil → out = Nil ∧ h' = h) ∧
  (s ≠ Nil → out = Ref (length h) ∧ h' = h ++ [contents h s]) ∧
  contents h' out = contents h s ∧
  (∀ x, live h x → contents h' x = contents h x ∧ (x = Nil ∨ x ≠ out)).
Proof.
  intros Hd. split; [|split; [|split]].
  - intros ->. by injection Hd as <- <-.
  - destruct s as [|l]; [done|]. intros _. rewrite dup_Ref in Hd.
    by injection Hd as <- <-.
  - by eapply dup_contents.
  - intros x Hl. split.
    + apply contents_prefix; [by eapply dup_prefix|done].
    + destruct x as [|l]; [by left|right]. intros <-.
      pose proof (dup_fresh _ _ _ _ l Hd eq_refl). simpl in Hl. lia.
Qed.

Lemma dup_copies_fresh_witness :
  dup (Ref 0) example_heap = (Ref 1, [[Byte.x61]; [Byte.x61]]) ∧
  contents [[Byte.x61]; [Byte.x61]] (Ref 1) = contents example_heap (Ref 0).
Proof.
  assert (Hd : dup (Ref 0) example_heap = (Ref 1, [[Byte.x61]; [Byte.x61]]))
    by reflexivity.
  split; [exact Hd|].
  destruct (dup_copies_fresh (Ref 0) (Ref 1) example_heap _ Hd)
    as (_ & _ & Hc & _).
  exact Hc.
Defined.

(** ** [NewRetry] and the retry loops *)

(** X2: [NewRetry] refuses a number of attempts that is not positive with a
    configuration error and no store.  The store it refuses would never
    call the wrapped store: each of its methods would return a nil error,
    [Get] with a nil slice, leaving store and heap untouched. *)
Theorem NewRetry_guard {B : Type} `{!ObjectStorage B} (b : B) (n : Z)
    (key : string) (data : slice) (h : heap) :
  (n ≤ 0)%Z →
  (NewRetry b n).1 = None ∧
  (∃ msg, (NewRetry b n).2 = Some (ErrOther msg)) ∧
  retry_Get key (mk_retry b n) h = ((Nil, None), (mk_retry b n, h)) ∧
  retry_Set key data (mk_retry b n) h = (None, (mk_retry b n, h)) ∧
  retry_Delete key (mk_retry b n) h = (None, (mk_retry b n, h)).
Proof.
  intros Hn. unfold NewRetry.
  assert (Hle : (n <=? 0)%Z = true) by (by apply Z.leb_le).
  assert (H0 : Z.to_nat n = 0) by lia.
  rewrite Hle. split; [done|]. split; [by eexists|].
  unfold retry_Get, retry_Set, retry_Delete. simpl. by rewrite H0.
Qed.

Lemma NewRetry_guard_witness :
  (0 ≤ 0)%Z ∧
  (NewRetry (flaky []) 0).1 = None ∧
  retry_Get "a" (mk_retry (flaky []) 0) []
    = ((Nil, None), (mk_retry (flaky []) 0, [])).
Proof.
  assert (Hn : (0 ≤ 0)%Z) by lia.
  destruct (NewRetry_guard (flaky []) 0 "a" Nil [] Hn) as (H1 & _ & H2 & _).
  split; [exact Hn|]. split; [exact H1|exact H2].
Defined.

Lemma first_attempts_first_stop {B R : Type} (f : B → heap → R * (B * heap))
    (stop : R → bool) (n i : nat) (r0 : R) (b : B) (h : heap) :
  i < n →
  (∀ j, j < i → stop (nth_call f j b h).1 = false) →
  stop (nth_call f i b h).1 = true →
  first_attempts f stop n r0 b h = nth_call f i b h.
Proof.
  intros Hi Hbefore Hstop.
  destruct (first_attempts_spec f stop n r0 b h)
    as (i' & Hi' & Heq & Hbefore' & Hlast'); [lia|].
  assert (i' = i) as ->; [|done].
  destruct (Nat.lt_trichotomy i' i) as [Hlt|[?|Hgt]]; [|done|].
  - specialize (Hbefore i' Hlt). destruct Hlast' as [Hst|?]; [congruence|lia].
  - specialize (Hbefore' i Hgt). congruence.
Qed.

(** X3: a retry method returns the result of the first attempt that ends
    its loop, after exactly that many calls of the wrapped method: for
    [Set] and [Delete] the first attempt with a nil error (NotFound is
    retried like any other error), for [Get] the first with a nil error or
    NotFound.  A wrapped store that fails [N - 1] times and then succeeds
    makes the retry method succeed. *)
Theorem retry_stops_at_first_terminal {B : Type} `{!ObjectStorage B}
    (N : Z) (t : traced B) (key : string) (data : slice) (h : heap) (i : nat) :
  i < Z.to_nat N →
  ((∀ j, j < i → nil_or_not_found (nth_call (os_Get key) j t h).1.2 = false) →
   nil_or_not_found (nth_call (os_Get key) i t h).1.2 = true →
   retry_Get key (mk_retry t N) h
     = under_retry N (nth_call (os_Get key) i t h) ∧
   calls (retry_base (retry_Get key (mk_retry t N) h).2.1)
     = calls t ++ replicate (S i) (CallGet key)) ∧
  ((∀ j, j < i → (nth_call (os_Set key data) j t h).1 ≠ None) →
   (nth_call (os_Set key data) i t h).1 = None →
   retry_Set key data (mk_retry t N) h
     = under_retry N (nth_call (os_Set key data) i t h) ∧
   (retry_Set key data (mk_retry t N) h).1 = None ∧
   calls (retry_base (retry_Set key data (mk_retry t N) h).2.1)
     = calls t ++ replicate (S i) (CallSet key data)) ∧
  ((∀ j, j < i → (nth_call (os_Delete key) j t h).1 ≠ None) →
   (nth_call (os_Delete key) i t h).1 = None →
   retry_Delete key (mk_retry t N) h
     = under_retry N (nth_call (os_Delete key) i t h) ∧
   (retry_Delete key (mk_retry t N) h).1 = None ∧
   calls (retry_base (retry_Delete key (mk_retry t N) h).2.1)
     = calls t ++ replicate (S i) (CallDelete key)).
Proof.
  intros Hi. split; [|split].
  - intros Hbefore Hstop. rewrite retry_Get_unfold.
    rewrite (first_attempts_first_stop (os_Get key)
               (λ r, nil_or_not_found r.2) (Z.to_nat N) i (Nil, None) t h
               Hi Hbefore Hstop).
    split; [done|].
    exact (nth_call_recorded (os_Get key) (CallGet key)
             (traced_Get_records key) i t h).
  - intros Hbefore Hstop. rewrite retry_Set_unfold.
    rewrite (first_attempts_first_stop (os_Set key data) is_nil
               (Z.to_nat N) i None t h Hi).
    + split; [done|]. split; [exact Hstop|].
      exact (nth_call_recorded (os_Set key data) (CallSet key data)
               (traced_Set_records key data) i t h).
    + intros j Hj. specialize (Hbefore j Hj).
      by destruct ((nth_call (os_Set key data) j t h).1).
    + by rewrite Hstop.
  - intros Hbefore Hstop. rewrite retry_Delete_unfold.
    rewrite (first_attempts_first_stop (os_Delete key) is_nil
               (Z.to_nat N) i None t h Hi).
    + split; [done|]. split; [exact Hstop|].
      exact (nth_call_recorded (os_Delete key) (CallDelete key)
               (traced_Delete_records key) i t h).
    + intros j Hj. specialize (Hbefore j Hj).
      by destruct ((nth_call (os_Delete key) j t h).1).
    + by rewrite Hstop.
Qed.

Lemma retry_stops_at_first_terminal_witness :
  let t := flaky [Some (ErrOther "timeout"); Some ErrObjectNotFound] in
  2 < Z.to_nat 3 ∧
  (retry_Delete "a" (mk_retry t 3) []).1 = None ∧
  calls (retry_base (retry_Delete "a" (mk_retry t 3) []).2.1)
    = [CallDelete "a"; CallDelete "a"; CallDelete "a"].
Proof.
  intros t.
  assert (Hi : 2 < Z.to_nat 3) by (vm_compute; lia).
  destruct (retry_stops_at_first_terminal 3 t "a" Nil [] 2 Hi)
    as (_ & _ & HD).
  destruct HD as (_ & He & Hc).
  - intros j Hj.
    assert (j = 0 ∨ j = 1) as [-> | ->] by lia; by vm_compute.
  - by vm_compute.
  - split; [exact Hi|]. split; [exact He|exact Hc].
Defined.

(** ** [NewCache] and the cache methods *)

(** X4: a store built by [NewCache] wraps the store it was given and caches
    nothing: its capacity is positive, and the first [Get] of any key calls
    the wrapped [Get] once and reports its error. *)
Theorem NewCache_starts_empty {B : Type} `{!ObjectStorage B}
    (b : traced B) (size : Z) (c : cache (traced B)) :
  NewCache b size = (Some c, None) →
  cache_base c = b ∧
  lru_ok (cache_cache c) ∧
  lru_keys (cache_cache c) = [] ∧
  ∀ key h,
    calls (cache_base (cache_Get key c h).2.1) = calls b ++ [CallGet key] ∧
    (cache_Get key c h).1.2 = (os_Get key b h).1.2.
Proof.
  unfold NewCache. destruct (lru_New size) as [[l|] [e|]] eqn:Hnew; try done.
  intros [= <-]. apply lru_New_ok in Hnew as [Hok Hitems].
  cbn [cache_base cache_cache].
  split; [done|]. split; [done|].
  split; [unfold lru_keys; by rewrite Hitems|].
  intros key h. unfold cache_Get. cbn [cache_base cache_cache].
  rewrite lru_Get_miss by (unfold lru_find; by rewrite Hitems).
  pose proof (traced_Get_records key b h) as Hrec.
  destruct (os_Get key b h) as [[d e] [t1 h1]]. simpl in Hrec.
  destruct e as [e|]; [done|]. by destruct (dup d h1).
Qed.

Lemma NewCache_starts_empty_witness :
  let b := mk_traced NewMemory [] in
  let c := mk_cache b (mk_lru 2 []) in
  NewCache b 2 = (Some c, None) ∧
  lru_keys (cache_cache c) = [] ∧
  calls (cache_base (cache_Get "a" c []).2.1) = [CallGet "a"].
Proof.
  intros b c.
  assert (Hn : NewCache b 2 = (Some c, None)) by reflexivity.
  destruct (NewCache_starts_empty b 2 c Hn) as (_ & _ & Hk & Hg).
  split; [exact Hn|]. split; [exact Hk|].
  exact (proj1 (Hg "a" [])).
Defined.

(** X5: a [cache.Get] that missed and was answered by the wrapped store has
    called it once and cached the answer: the next [Get] of the key returns
    the same bytes and makes no call. *)
Theorem cache_Get_fill_then_hit {B : Type} `{!ObjectStorage B}
    `{!Allocating B} (c c1 : cache (traced B)) (key : string) (d : slice)
    (h h1 : heap) :
  0 < lru_size (cache_cache c) →
  lru_find key (cache_cache c) = None →
  cache_Get key c h = ((d, None), (c1, h1)) →
  calls (cache_base c1) = calls (cache_base c) ++ [CallGet key] ∧
  ∃ r c2 h2,
    cache_Get key c1 h1 = ((r, None), (c2, h2)) ∧
    contents h2 r = contents h1 d ∧
    cache_base c2 = cache_base c1.
Proof.
  intros Hsz Hmiss. unfold cache_Get at 1. rewrite (lru_Get_miss _ _ Hmiss).
  pose proof (traced_Get_records key (cache_base c) h) as Hrec.
  destruct (os_Get key (cache_base c) h) as [[d0 e] [t1 h0]] eqn:Hg.
  simpl in Hrec. destruct e as [e|]; [done|].
  destruct (dup d0 h0) as [dc h0'] eqn:Hd. intros [= <- <- <-].
  split; [exact Hrec|].
  destruct (cache_Get_cached key
              (mk_cache t1 (lru_Add key dc (cache_cache c))) dc h0')
    as (r & c2 & h2 & Hget & Hd2 & Hbase & _); [by apply lru_find_Add|].
  exists r, c2, h2. split; [done|]. split; [|done].
  rewrite (dup_contents _ _ _ _ Hd2), (dup_contents _ _ _ _ Hd).
  symmetry. apply contents_prefix; [by eapply dup_prefix|].
  eapply (Get_live (T := traced B)). exact Hg.
Qed.

Lemma cache_Get_fill_then_hit_witness :
  let g := cache_Get "b" example_cache example_heap in
  0 < lru_size (cache_cache example_cache) ∧
  lru_find "b" (cache_cache example_cache) = None ∧
  g = ((g.1.1, None), g.2) ∧
  calls (cache_base g.2.1) = [CallGet "b"] ∧
  ∃ r c2 h2,
    cache_Get "b" g.2.1 g.2.2 = ((r, None), (c2, h2)) ∧
    contents h2 r = contents g.2.2 g.1.1 ∧
    cache_base c2 = cache_base g.2.1.
Proof.
  intros g.
  assert (Hsz : 0 < lru_size (cache_cache example_cache)) by (simpl; lia).
  assert (Hm : lru_find "b" (cache_cache example_cache) = None) by reflexivity.
  assert (Hg : cache_Get "b" example_cache example_heap
               = ((g.1.1, None), (g.2.1, g.2.2))) by (by vm_compute).
  split; [exact Hsz|]. split; [exact Hm|]. split; [by vm_compute|].
  exact (cache_Get_fill_then_hit example_cache g.2.1 "b" g.1.1 example_heap
           g.2.2 Hsz Hm Hg).
Defined.

(** X6: a [cache.Get] of a cached key succeeds with the cached bytes and
    does not touch the wrapped store; it only makes the key the most recent
    one: every key is cached with the same slice as before. *)
Theorem cache_Get_hit_keeps_entries {B : Type} `{!ObjectStorage B}
    (c : cache (traced B)) (key : string) (v : slice) (h : heap) :
  lru_find key (cache_cache c) = Some v →
  ∃ r c1 h1,
    cache_Get key c h = ((r, None), (c1, h1)) ∧
    contents h1 r = contents h v ∧
    cache_base c1 = cache_base c ∧
    head (lru_keys (cache_cache c1)) = Some key ∧
    lru_size (cache_cache c1) = lru_size (cache_cache c) ∧
    ∀ k, lru_find k (cache_cache c1) = lru_find k (cache_cache c).
Proof.
  intros Hf. unfold cache_Get. rewrite (lru_Get_hit _ _ _ Hf).
  destruct (dup v h) as [r h1] eqn:Hd.
  eexists r, _, h1. split; [done|]. cbn [cache_base cache_cache].
  split; [by eapply dup_contents|]. repeat split.
  intros k. unfold lru_find. simpl. destruct (decide (key = k)) as [<-|Hne].
  - symmetry. exact Hf.
  - apply lru_assoc_drop_ne. congruence.
Qed.

Lemma cache_Get_hit_keeps_entries_witness :
  let c := mk_cache (flaky []) (mk_lru 2 [("b", Nil); ("a", Ref 0)]) in
  lru_find "a" (cache_cache c) = Some (Ref 0) ∧
  ∃ r c1 h1,
    cache_Get "a" c example_heap = ((r, None), (c1, h1)) ∧
    contents h1 r = contents example_heap (Ref 0) ∧
    cache_base c1 = cache_base c ∧
    head (lru_keys (cache_cache c1)) = Some "a" ∧
    lru_size (cache_cache c1) = lru_size (cache_cache c) ∧
    ∀ k, lru_find k (cache_cache c1) = lru_find k (cache_cache c).
Proof.
  intros c.
  assert (Hf : lru_find "a" (cache_cache c) = Some (Ref 0)) by reflexivity.
  split; [exact Hf|].
  exact (cache_Get_hit_keeps_entries c "a" (Ref 0) example_heap Hf).
Defined.

(** X7: [cache.Delete] drops the key from the cache whatever the wrapped
    [Delete] answers, calls it once and returns its error as it is; the
    other entries stay, and the next [Get] of the key calls the wrapped
    store. *)
Theorem cache_Delete_uncaches {B : Type} `{!ObjectStorage B}
    (c : cache (traced B)) (key : string) (h : heap) :
  let r := os_Delete key (cache_base c) h in
  let c1 := mk_cache r.2.1 (lru_Remove key (cache_cache c)) in
  cache_Delete key c h = (r.1, (c1, r.2.2)) ∧
  calls r.2.1 = calls (cache_base c) ++ [CallDelete key] ∧
  lru_find key (cache_cache c1) = None ∧
  (∀ k, k ≠ key → lru_find k (cache_cache c1) = lru_find k (cache_cache c)) ∧
  ∀ h2,
    calls (cache_base (cache_Get key c1 h2).2.1) = calls r.2.1 ++ [CallGet key].
Proof.
  intros r c1. pose proof (traced_Delete_records key (cache_base c) h) as Hrec.
  fold r in Hrec. unfold cache_Delete. fold r. subst c1.
  destruct r as [e [t1 h1]]. cbn [fst snd cache_cache cache_base] in *.
  split; [done|]. split; [exact Hrec|].
  split; [apply lru_find_Remove|].
  split; [intros k Hne; by apply lru_find_Remove_ne|].
  intros h2. unfold cache_Get. cbn [cache_cache cache_base].
  rewrite lru_Get_miss by apply lru_find_Remove.
  pose proof (traced_Get_records key t1 h2) as Hrec2.
  destruct (os_Get key t1 h2) as [[d e2] [t2 h3]]. simpl in Hrec2.
  destruct e2 as [e2|]; [done|]. by destruct (dup d h3).
Qed.

(** X8: a cache method called with one key never adds or changes the entry
    of another key: whatever is cached under another key afterwards was
    cached under it, with the same slice, before. *)
Theorem cache_touches_only_its_key {B : Type} `{!ObjectStorage B}
    (c : cache B) (key k : string) (data d : slice) (h : heap) :
  k ≠ key →
  (lru_find k (cache_cache (cache_Get key c h).2.1) = Some d →
   lru_find k (cache_cache c) = Some d) ∧
  (lru_find k (cache_cache (cache_Set key data c h).2.1) = Some d →
   lru_find k (cache_cache c) = Some d) ∧
  (lru_find k (cache_cache (cache_Delete key c h).2.1) = Some d →
   lru_find k (cache_cache c) = Some d).
Proof.
  intros Hne. split; [|split].
  - unfold cache_Get.
    pose proof (lru_find_Get_ne key k (cache_cache c) Hne) as HG.
    destruct (lru_Get key (cache_cache c)) as [[val|] l1] eqn:Hl; simpl in HG.
    + destruct (dup val h). simpl. by rewrite HG.
    + destruct (os_Get key (cache_base c) h) as [[d0 e] [b1 h1]].
      destruct e as [e|]; simpl; [by rewrite HG|].
      destruct (dup d0 h1). simpl. intros Hk%lru_find_Add_ne; [|done].
      by rewrite <- HG.
  - unfold cache_Set.
    destruct (os_Set key data (cache_base c) h) as [e [b1 h1]].
    destruct e as [e|]; simpl.
    + by rewrite lru_find_Remove_ne.
    + destruct (dup data h1). simpl. intros Hk%lru_find_Add_ne; [|done].
      by rewrite lru_find_Remove_ne in Hk.
  - unfold cache_Delete.
    destruct (os_Delete key (cache_base c) h) as [e [b1 h1]]. simpl.
    by rewrite lru_find_Remove_ne.
Qed.

Lemma cache_touches_only_its_key_witness :
  "b" ≠ "c" ∧
  (lru_find "b" (cache_cache
       (cache_Set "c" Nil (mk_cache NewMemory (mk_lru 2 [("b", Nil)])) []).2.1)
     = Some Nil →
   lru_find "b" (mk_lru 2 [("b", Nil)]) = Some Nil).
Proof.
  assert (Hne : "b" ≠ "c") by done.
  split; [exact Hne|].
  exact (proj1 (proj2 (cache_touches_only_its_key
                         (mk_cache NewMemory (mk_lru 2 [("b", Nil)]))
                         "c" "b" Nil Nil [] Hne))).
Defined.

(** X9: the cache never grows beyond its capacity: a cache within a
    positive capacity is within the same capacity after [Get], [Set] and
    [Delete], whatever the wrapped store answers. *)
Theorem cache_within_capacity {B : Type} `{!ObjectStorage B}
    (c : cache B) (key : string) (data : slice) (h : heap) :
  lru_ok (cache_cache c) →
  (lru_ok (cache_cache (cache_Get key c h).2.1) ∧
   lru_size (cache_cache (cache_Get key c h).2.1) = lru_size (cache_cache c)) ∧
  (lru_ok (cache_cache (cache_Set key data c h).2.1) ∧
   lru_size (cache_cache (cache_Set key data c h).2.1)
     = lru_size (cache_cache c)) ∧
  (lru_ok (cache_cache (cache_Delete key c h).2.1) ∧
   lru_size (cache_cache (cache_Delete key c h).2.1)
     = lru_size (cache_cache c)).
Proof.
  intros Hok. split; [|split].
  - unfold cache_Get. pose proof (lru_Get_ok key _ Hok) as Hok'.
    assert (Hsz : lru_size (lru_Get key (cache_cache c)).2
                  = lru_size (cache_cache c)).
    { unfold lru_Get. by destruct (lru_find key (cache_cache c)). }
    destruct (lru_Get key (cache_cache c)) as [[val|] l1]; simpl in Hok', Hsz.
    + by destruct (dup val h).
    + destruct (os_Get key (cache_base c) h) as [[d0 e] [b1 h1]].
      destruct e as [e|]; [done|]. destruct (dup d0 h1). simpl.
      split; [by apply lru_Add_ok|by rewrite lru_Add_size].
  - unfold cache_Set.
    destruct (os_Set key data (cache_base c) h) as [e [b1 h1]].
    destruct e as [e|]; simpl.
    + split; [by apply lru_Remove_ok|done].
    + destruct (dup data h1). simpl.
      split; [by apply lru_Add_ok, lru_Remove_ok|by rewrite lru_Add_size].
  - unfold cache_Delete.
    destruct (os_Delete key (cache_base c) h) as [e [b1 h1]]. simpl.
    split; [by apply lru_Remove_ok|done].
Qed.

Lemma cache_within_capacity_witness :
  let c := mk_cache NewMemory (mk_lru 1 [("b", Nil)]) in
  lru_ok (cache_cache c) ∧
  lru_ok (cache_cache (cache_Set "a" Nil c []).2.1) ∧
  lru_keys (cache_cache (cache_Set "a" Nil c []).2.1) = ["a"].
Proof.
  intros c.
  assert (Hok : lru_ok (cache_cache c)) by (split; simpl; lia).
  destruct (cache_within_capacity c "a" Nil [] Hok) as (_ & [HS _] & _).
  split; [exact Hok|]. split; [exact HS|by vm_compute].
Defined.
